(** * Peloton / n-store: tile materialization and table storage

    A shallow embedding of

    - [src/backend/executor/materialization_executor.cpp]
      (the materialization executor: [DInit], [GenerateTileToColMap],
      [MaterializeByTiles], [BuildIdentityMapping], [Physify], [DExecute]),
    - [src/executor/logical_schema.h] (the per-column mapping of a logical
      tile back to its base tiles),
    - [src/storage/table.h] (the table: its list of tile groups,
      [GetTileGroup], [NumTileGroups], the default [tuples_per_tilegroup]),

    together with the properties the specification states about them.

    Conventions.  [oid_t] / [id_t] are unsigned machine integers whose
    declaration ([common/types.h]) is not part of the sources at hand; they
    are modelled by [nat], i.e. all counts are taken to be within the range
    of the machine type.  A C++ call whose behaviour is undefined or that
    trips an [assert] is a fault: fallible operations return [option]
    ([None] is the fault), and where the distinction matters an explicit
    outcome type is used.  A [std::unordered_map] is a [gmap]; the order in
    which a range-for walks it is not specified by the language, so every
    such loop takes the enumeration it walks from an iteration oracle that is
    only known to enumerate the map. *)

From stdpp Require Import gmap list strings fin_maps.
From Stdlib Require Import ZArith Lia.

(** Closes a decidable closed goal by evaluating its decision procedure. *)
Ltac by_computation := apply (bool_decide_unpack _); vm_compute; exact I.

Module Executor.

(** ** Values, schemas, physical tiles *)

Abbreviation oid_t := nat.

(** The values the test utilities build through [ValueFactory]: integers,
    doubles (kept as their 64-bit pattern), strings and the two nulls. *)
Inductive Value :=
  | NullValue
  | IntegerValue (z : Z)
  | DoubleValue (bits : Z)
  | StringValue (s : string)
  | NullStringValue.

#[global] Instance Value_eq_dec : EqDecision Value.
Proof. solve_decision. Defined.

Inductive ValueType :=
  | VALUE_TYPE_INTEGER
  | VALUE_TYPE_DOUBLE
  | VALUE_TYPE_VARCHAR.

(** [catalog::ColumnInfo(type, length, name, allow_null, is_inlined)], as it
    is constructed in [ExecutorTestsUtil::GetColumnInfo]. *)
Record ColumnInfo := mkColumnInfo {
  col_type : ValueType;
  col_length : nat;
  col_name : string;
  allow_null : bool;
  is_inlined : bool
}.

(** [catalog::Schema]: an ordered sequence of column descriptors. *)
Definition Schema := list ColumnInfo.

Definition GetColumnCount (s : Schema) : oid_t := length s.

(** Modelled from the spec: [storage::Tile] (its class is not among the
    sources).  "Owns a schema fragment, a tuple capacity, and column-major
    backing storage; supports GetValue(slot, col) / SetValue(value, slot,
    col); slot indices are dense [0, capacity)".  The backing storage maps an
    address (slot, column) to the value last stored there; a cell that was
    never stored to has no defined value. *)
Record Tile := mkTile {
  tile_schema : Schema;
  tile_capacity : nat;
  tile_data : gmap (oid_t * oid_t) Value
}.

Definition in_range (t : Tile) (slot col : oid_t) : bool :=
  (slot <? tile_capacity t) && (col <? length (tile_schema t)).

Definition Tile_GetValue (t : Tile) (slot col : oid_t) : option Value :=
  if in_range t slot col then tile_data t !! (slot, col) else None.

(** Modelled from the spec: [Tile::SetValue(value, slot, col)]; outside the
    allocated slots or columns it is a fault. *)
Definition Tile_SetValue (v : Value) (slot col : oid_t) (t : Tile) : option Tile :=
  if in_range t slot col
  then Some (mkTile (tile_schema t) (tile_capacity t) (<[(slot, col) := v]> (tile_data t)))
  else None.

(** Modelled from the spec: [storage::TileFactory::GetTempTile(schema,
    tuple_count)], "a new PhysicalTile sized to the source LogicalTile's
    selected tuple count and shaped to the target schema", with nothing
    stored in it yet. *)
Definition GetTempTile (schema : Schema) (tuple_count : nat) : Tile :=
  mkTile schema tuple_count ∅.

(** Tiles live on the heap; a [storage::Tile *] is an address. *)
Abbreviation TilePtr := nat.
Abbreviation Heap := (gmap TilePtr Tile).

(** ** Logical schema and logical tile *)

(** [LogicalSchema] of [logical_schema.h]: three parallel vectors. *)
Record LogicalSchema := mkLogicalSchema {
  base_tiles : list TilePtr;
  origin_columns : list oid_t;
  valid_bits : list bool
}.

(** Modelled from the spec: the bodies of the [LogicalSchema] methods (only
    their declarations are in [logical_schema.h]).  Indexing a vector past
    its end is a fault. *)
Definition GetBaseTile (s : LogicalSchema) (column_id : oid_t) : option TilePtr :=
  base_tiles s !! column_id.

Definition GetOriginColumnId (s : LogicalSchema) (column_id : oid_t) : option oid_t :=
  origin_columns s !! column_id.

Definition IsValid (s : LogicalSchema) (column_id : oid_t) : option bool :=
  valid_bits s !! column_id.

Definition AddColumn (base_tile : TilePtr) (column_id : oid_t) (s : LogicalSchema)
  : LogicalSchema :=
  mkLogicalSchema (base_tiles s ++ [base_tile])
                  (origin_columns s ++ [column_id])
                  (valid_bits s ++ [true]).

(** "Note that this includes invalidated columns." *)
Definition NumCols (s : LogicalSchema) : nat := length (base_tiles s).

(** Modelled from the spec: [LogicalTile] (its class is not among the
    sources).  It holds the per-column mapping, "the selected (visible)
    row-id sequence" that iteration yields in order, the count that
    [GetTupleCount()] reports, and the ownership flag. *)
Record LogicalTile := mkLogicalTile {
  lt_schema : LogicalSchema;
  lt_rows : list oid_t;
  lt_tuple_count : nat;
  own_base_tile : bool
}.

Definition GetTupleCount (t : LogicalTile) : nat := lt_tuple_count t.

(** [for (oid_t old_tuple_id : *source_tile)] walks this sequence. *)
Definition iterate (t : LogicalTile) : list oid_t := lt_rows t.

(** Modelled from the spec: [LogicalTile::GetValue(tuple_id, column_id)]
    resolves the column to its "(owning tile, origin column)" pair and reads
    the base tile there. *)
Definition LT_GetValue (h : Heap) (t : LogicalTile) (tuple_id column_id : oid_t)
  : option Value :=
  base ← GetBaseTile (lt_schema t) column_id;
  tile ← h !! base;
  oc ← GetOriginColumnId (lt_schema t) column_id;
  Tile_GetValue tile tuple_id oc.

(** Modelled from the spec: [LogicalTile::GetPhysicalSchema()] is "the
    source's inferred schema", one column descriptor per logical column,
    taken from the base tile of that column. *)
Definition physical_column (h : Heap) (s : LogicalSchema) (column_id : oid_t)
  : option ColumnInfo :=
  base ← GetBaseTile s column_id;
  tile ← h !! base;
  oc ← GetOriginColumnId s column_id;
  tile_schema tile !! oc.

Definition GetPhysicalSchema (h : Heap) (t : LogicalTile) : option Schema :=
  mapM (physical_column h (lt_schema t)) (seq 0 (NumCols (lt_schema t))).

(** Modelled from the spec: [LogicalTileFactory::WrapTiles({tile},
    own_base_tile)] for one tile placed at address [p] gives a logical tile
    with the "identity mapping over its own columns" and every slot of the
    tile selected. *)
Definition wrap_schema (p : TilePtr) (ncols : nat) : LogicalSchema :=
  foldl (λ s c, AddColumn p c s) (mkLogicalSchema [] [] []) (seq 0 ncols).

Definition WrapTiles (p : TilePtr) (t : Tile) (own : bool) : LogicalTile :=
  mkLogicalTile (wrap_schema p (length (tile_schema t)))
                (seq 0 (tile_capacity t))
                (tile_capacity t)
                own.

(** [new]ing a tile: the address is one the heap does not use yet. *)
Definition alloc (h : Heap) : TilePtr := fresh (dom h).

(** ** The plan node *)

(** Modelled from the spec: [planner::MaterializationNode], the directive
    with "an optional (old-column -> new-column) mapping plus an optional
    output schema plus a physicalize flag"; the fields are what
    [GetSchema()] (which may be null), [old_to_new_cols()] and
    [GetPhysifyFlag()] return. *)
Record MaterializationNode := mkMaterializationNode {
  node_schema : option Schema;
  node_old_to_new_cols : gmap oid_t oid_t;
  node_physify_flag : bool
}.

(** How a call ends: it returns, an [assert] aborts the process, or it runs
    into undefined behaviour (a vector indexed past its end). *)
Inductive outcome (A : Type) :=
  | Returns (a : A)
  | AssertionFailure
  | UndefinedBehaviour.
Arguments Returns {A} a.
Arguments AssertionFailure {A}.
Arguments UndefinedBehaviour {A}.

(** ** The executor *)

Section Iteration.

(** The enumeration a range-for over [old_to_new_cols] walks, and the one a
    range-for over [tile_to_cols] walks. *)
Variable iter_cols : gmap oid_t oid_t → list (oid_t * oid_t).
Variable iter_tiles : gmap TilePtr (list oid_t) → list (TilePtr * list oid_t).

(** [GenerateTileToColMap]: for every key of [old_to_new_cols],
    [cols_in_physical_tile[base_tile].push_back(col)]. *)
Definition push_col (base_tile : TilePtr) (col : oid_t)
    (cols_in_physical_tile : gmap TilePtr (list oid_t)) : gmap TilePtr (list oid_t) :=
  <[base_tile := default [] (cols_in_physical_tile !! base_tile) ++ [col]]>
    cols_in_physical_tile.

Fixpoint GenerateTileToColMap_loop (kvs : list (oid_t * oid_t)) (source_tile : LogicalTile)
    (cols_in_physical_tile : gmap TilePtr (list oid_t))
  : option (gmap TilePtr (list oid_t)) :=
  match kvs with
  | [] => Some cols_in_physical_tile
  | kv :: rest =>
      let col := kv.1 in
      base_tile ← GetBaseTile (lt_schema source_tile) col;
      GenerateTileToColMap_loop rest source_tile
        (push_col base_tile col cols_in_physical_tile)
  end.

Definition GenerateTileToColMap (old_to_new_cols : gmap oid_t oid_t)
    (source_tile : LogicalTile) (cols_in_physical_tile : gmap TilePtr (list oid_t))
  : option (gmap TilePtr (list oid_t)) :=
  GenerateTileToColMap_loop (iter_cols old_to_new_cols) source_tile cols_in_physical_tile.

(** The innermost loop of [MaterializeByTiles]:
    [dest_tile->SetValue(value, new_tuple_id++, new_col_id)] for every
    [old_tuple_id] the source yields. *)
Fixpoint copy_rows (h : Heap) (source_tile : LogicalTile) (old_col_id new_col_id : oid_t)
    (rows : list oid_t) (new_tuple_id : oid_t) (dest_tile : Tile) : option Tile :=
  match rows with
  | [] => Some dest_tile
  | old_tuple_id :: rest =>
      value ← LT_GetValue h source_tile old_tuple_id old_col_id;
      dest_tile' ← Tile_SetValue value new_tuple_id new_col_id dest_tile;
      copy_rows h source_tile old_col_id new_col_id rest (S new_tuple_id) dest_tile'
  end.

(** The loop over the columns of one bucket; [new_tuple_id] restarts at 0
    for each column, and a column missing from [old_to_new_cols] trips the
    [assert(it != old_to_new_cols.end())]. *)
Fixpoint copy_columns (h : Heap) (source_tile : LogicalTile)
    (old_to_new_cols : gmap oid_t oid_t) (old_column_ids : list oid_t) (dest_tile : Tile)
  : option Tile :=
  match old_column_ids with
  | [] => Some dest_tile
  | old_col_id :: rest =>
      new_col_id ← old_to_new_cols !! old_col_id;
      dest_tile' ← copy_rows h source_tile old_col_id new_col_id
                     (iterate source_tile) 0 dest_tile;
      copy_columns h source_tile old_to_new_cols rest dest_tile'
  end.

(** The loop over the buckets. *)
Fixpoint copy_buckets (h : Heap) (source_tile : LogicalTile)
    (old_to_new_cols : gmap oid_t oid_t) (kvs : list (TilePtr * list oid_t))
    (dest_tile : Tile) : option Tile :=
  match kvs with
  | [] => Some dest_tile
  | kv :: rest =>
      dest_tile' ← copy_columns h source_tile old_to_new_cols kv.2 dest_tile;
      copy_buckets h source_tile old_to_new_cols rest dest_tile'
  end.

Definition MaterializeByTiles (h : Heap) (source_tile : LogicalTile)
    (old_to_new_cols : gmap oid_t oid_t) (tile_to_cols : gmap TilePtr (list oid_t))
    (dest_tile : Tile) : option Tile :=
  copy_buckets h source_tile old_to_new_cols (iter_tiles tile_to_cols) dest_tile.

Definition BuildIdentityMapping (schema : Schema) : gmap oid_t oid_t :=
  foldl (λ old_to_new_cols col, <[col := col]> old_to_new_cols) ∅
        (seq 0 (GetColumnCount schema)).

(** The first half of [Physify]: the output schema and the column mapping. *)
Definition resolve_mapping (node : option MaterializationNode) (source_tile_schema : Schema)
  : Schema * gmap oid_t oid_t :=
  match node with
  | None => (source_tile_schema, BuildIdentityMapping source_tile_schema)
  | Some node =>
      match node_schema node with
      | Some schema => (schema, node_old_to_new_cols node)
      | None => (source_tile_schema, BuildIdentityMapping source_tile_schema)
      end
  end.

(** [Physify]: returns the heap with the new tile in it and the logical
    tile that wraps (and owns) the new tile. *)
Definition Physify (node : option MaterializationNode) (h : Heap) (source_tile : LogicalTile)
  : option (Heap * LogicalTile) :=
  source_tile_schema ← GetPhysicalSchema h source_tile;
  let num_tuples := GetTupleCount source_tile in
  let '(output_schema, old_to_new_cols) := resolve_mapping node source_tile_schema in
  tile_to_cols ← GenerateTileToColMap old_to_new_cols source_tile ∅;
  let dest_tile := GetTempTile output_schema num_tuples in
  dest_tile' ← MaterializeByTiles h source_tile old_to_new_cols tile_to_cols dest_tile;
  let own_base_tile := true in
  let p := alloc h in
  Some (<[p := dest_tile']> h, WrapTiles p dest_tile' own_base_tile).

(** *** The executor object *)

(** Modelled from the spec: a child executor, seen through the operator
    pull contract ([Init], [Execute], [GetOutput]).  Every [Execute()]
    consumes the next scripted outcome ([None]: it returns false; [Some t]:
    it returns true and [t] is what [GetOutput()] hands over); a child with
    nothing left returns false.  [child_init] is what its [Init()] returns. *)
Record Child := mkChild {
  child_init : bool;
  child_pending : list (option LogicalTile);
  child_output : option LogicalTile
}.

Definition child_Execute (c : Child) : bool * Child :=
  match child_pending c with
  | [] => (false, c)
  | None :: rest => (false, mkChild (child_init c) rest (child_output c))
  | Some t :: rest => (true, mkChild (child_init c) rest (Some t))
  end.

(** [GetOutput()] transfers ownership: the child no longer holds the tile. *)
Definition child_GetOutput (c : Child) : option LogicalTile * Child :=
  (child_output c, mkChild (child_init c) (child_pending c) None).

(** The tile an [Execute()] / [GetOutput()] pair on [c] hands over. *)
Definition pulled (c : Child) : option LogicalTile :=
  let '(success, c') := child_Execute c in
  if success then (child_GetOutput c').1 else None.

(** Modelled from the spec: the members of [AbstractExecutor] (its class
    is not among the sources) as the materialization executor uses them:
    [children_], the plan node behind [GetRawNode()] and the one tile held as
    output, which [SetOutput] replaces. *)
Record MaterializationExecutor := mkExecutor {
  children_ : list Child;
  node_ : option MaterializationNode;
  output_ : option LogicalTile
}.

Definition set_child0 (c : Child) (ex : MaterializationExecutor) : MaterializationExecutor :=
  mkExecutor (<[0 := c]> (children_ ex)) (node_ ex) (output_ ex).

Definition SetOutput (t : LogicalTile) (ex : MaterializationExecutor)
  : MaterializationExecutor :=
  mkExecutor (children_ ex) (node_ ex) (Some t).

(** [DInit]: [assert(children_.size() == 1); return true;].  With [NDEBUG]
    the assertion is compiled out. *)
Definition DInit (ndebug : bool) (ex : MaterializationExecutor) : outcome bool :=
  if negb ndebug && negb (length (children_ ex) =? 1)
  then AssertionFailure
  else Returns true.

(** Modelled from the spec: [AbstractExecutor::Init] (not among the
    sources), "one-time setup; propagates to children": it fails as soon as
    a child's [Init] does and otherwise is what [DInit] says. *)
Definition Init (ndebug : bool) (ex : MaterializationExecutor) : outcome bool :=
  if forallb child_init (children_ ex) then DInit ndebug ex else Returns false.

(** [DExecute].  The result is the returned flag, the heap and the executor
    afterwards; [None] is a fault ([children_[0]] without a child, a null
    tile, a fault inside [Physify]).  Releasing the storage of a source tile
    that goes out of scope is not modelled. *)
Definition DExecute (h : Heap) (ex : MaterializationExecutor)
  : option (bool * Heap * MaterializationExecutor) :=
  child ← children_ ex !! 0;
  let '(success, child) := child_Execute child in
  if negb success then Some (false, h, set_child0 child ex)
  else
    let '(source_tile, child) := child_GetOutput child in
    let ex := set_child0 child ex in
    source_tile ← source_tile;
    let num_tuples := GetTupleCount source_tile in
    if num_tuples =? 0 then Some (false, h, ex)
    else
      let physify_flag :=
        match node_ ex with
        | Some node => node_physify_flag node
        | None => true
        end in
      if physify_flag
      then '(h', output_tile) ← Physify (node_ ex) h source_tile;
           Some (true, h', SetOutput output_tile ex)
      else Some (true, h, SetOutput source_tile ex).

End Iteration.

(** ** A concrete tile group

    The layout of [ExecutorTestsUtil::CreateTileGroup]: two tiles of two
    columns each, (COL_A, COL_B) and (COL_C, COL_D). *)

(** [ExecutorTestsUtil::GetColumnInfo]; [GetTypeSize], defined outside the
    sources, is taken to give 4 bytes for an integer and 8 for a double; an
    index beyond 3 throws. *)
Definition GetColumnInfo (index : nat) : option ColumnInfo :=
  let allow_null := false in
  let is_inlined := true in
  match index with
  | 0 => Some (mkColumnInfo VALUE_TYPE_INTEGER 4 "COL_A" allow_null is_inlined)
  | 1 => Some (mkColumnInfo VALUE_TYPE_INTEGER 4 "COL_B" allow_null is_inlined)
  | 2 => Some (mkColumnInfo VALUE_TYPE_DOUBLE 8 "COL_C" allow_null is_inlined)
  | 3 => Some (mkColumnInfo VALUE_TYPE_VARCHAR 25 "COL_D" allow_null (negb is_inlined))
  | _ => None
  end.

Definition sample_schema1 : Schema := omap GetColumnInfo [0; 1].
Definition sample_schema2 : Schema := omap GetColumnInfo [2; 3].

(** Three populated slots per tile. *)
Definition sample_tile1 : Tile :=
  mkTile sample_schema1 3
    (list_to_map [((0, 0), IntegerValue 0); ((0, 1), IntegerValue 1);
                  ((1, 0), IntegerValue 10); ((1, 1), IntegerValue 11);
                  ((2, 0), IntegerValue 20); ((2, 1), IntegerValue 21)]).

Definition sample_tile2 : Tile :=
  mkTile sample_schema2 3
    (list_to_map [((0, 0), DoubleValue 2); ((0, 1), StringValue "3");
                  ((1, 0), DoubleValue 12); ((1, 1), StringValue "13");
                  ((2, 0), DoubleValue 22); ((2, 1), StringValue "23")]).

Definition sample_heap : Heap := <[1 := sample_tile1]> (<[2 := sample_tile2]> ∅).

(** A view over both tiles that selects slot 2 and then slot 0. *)
Definition sample_source : LogicalTile :=
  mkLogicalTile
    (AddColumn 2 1 (AddColumn 2 0 (AddColumn 1 1 (AddColumn 1 0
       (mkLogicalSchema [] [] [])))))
    [2; 0] 2 false.

(** A view whose two columns are the first columns of two different
    integer tiles (as the output of a join would be), and a plan node that
    sends both of them to output column 0. *)
Definition sample_tile3 : Tile :=
  mkTile sample_schema1 3
    (list_to_map [((0, 0), IntegerValue 100); ((0, 1), IntegerValue 101);
                  ((1, 0), IntegerValue 110); ((1, 1), IntegerValue 111);
                  ((2, 0), IntegerValue 120); ((2, 1), IntegerValue 121)]).

Definition join_heap : Heap := <[3 := sample_tile3]> sample_heap.

Definition join_source : LogicalTile :=
  mkLogicalTile (AddColumn 3 0 (AddColumn 1 0 (mkLogicalSchema [] [] [])))
    [0; 1; 2] 3 false.

Definition clash_node : MaterializationNode :=
  mkMaterializationNode (Some (omap GetColumnInfo [0]))
    (<[0 := 0]> (<[1 := 0]> ∅)) true.

(** A plan node that keeps COL_D and COL_A, in that order, and drops the
    other two columns. *)
Definition reorder_node : MaterializationNode :=
  mkMaterializationNode (Some (omap GetColumnInfo [3; 0]))
    (<[3 := 0]> (<[0 := 1]> ∅)) true.

(** The two situations in which a pull yields nothing: the child's
    [Execute()] returned false, or the tile it handed over has no selected
    row. *)
Definition stream_exhausted (c : Child) : Prop := (child_Execute c).1 = false.

Definition empty_pull (c : Child) : Prop :=
  ∃ t, pulled c = Some t ∧ iterate t = [].

(** An executor with a child that delivers the sample view once, one whose
    child delivers a view without rows, and one without children. *)
Definition sample_executor : MaterializationExecutor :=
  mkExecutor [mkChild true [Some sample_source; None] None] None None.

Definition empty_view : LogicalTile :=
  mkLogicalTile (lt_schema sample_source) [] 0 false.

Definition empty_executor : MaterializationExecutor :=
  mkExecutor [mkChild true [Some empty_view; None] None] None (Some sample_source).

Definition childless_executor : MaterializationExecutor := mkExecutor [] None None.

(** The sample view with a count that is one short of the rows it yields. *)
Definition short_count_view : LogicalTile :=
  mkLogicalTile (lt_schema sample_source) [2; 0] 1 false.

(** ** Well-formed inputs *)

(** Invariants I1 and I2 of the data model, for one column: the column
    resolves to an existing column of an existing base tile, and every
    selected row can be read there. *)
Definition column_ok (h : Heap) (src : LogicalTile) (col : oid_t) : bool :=
  match physical_column h (lt_schema src) col with
  | Some _ =>
      forallb (λ row, bool_decide (is_Some (LT_GetValue h src row col))) (iterate src)
  | None => false
  end.

(** A source tile whose count is the number of rows it yields, whose three
    schema vectors are parallel, and all of whose columns are readable. *)
Definition source_ok (h : Heap) (src : LogicalTile) : bool :=
  (GetTupleCount src =? length (iterate src))
  && (length (origin_columns (lt_schema src)) =? NumCols (lt_schema src))
  && (length (valid_bits (lt_schema src)) =? NumCols (lt_schema src))
  && forallb (column_ok h src) (seq 0 (NumCols (lt_schema src))).

(** The cases in which [Physify] synthesizes the identity mapping: no plan
    node, or a plan node without a schema. *)
Definition implicit_identity (node : option MaterializationNode) : Prop :=
  match node with
  | None => True
  | Some node => node_schema node = None
  end.

(** Old columns exist in the source, new columns exist in the output. *)
Definition mapping_in_range (m : gmap oid_t oid_t) (src : LogicalTile) (oschema : Schema)
  : Prop :=
  map_Forall (λ old new, old < NumCols (lt_schema src) ∧ new < length oschema) m.

(** A column mapping in which no two old columns share a new column. *)
Definition injective_mapping (m : gmap oid_t oid_t) : Prop :=
  ∀ o1 o2 n, m !! o1 = Some n → m !! o2 = Some n → o1 = o2.

(** What [copy_columns] needs of a column it is asked to copy. *)
Definition copyable (h : Heap) (src : LogicalTile) (m : gmap oid_t oid_t)
    (ncols : nat) (old : oid_t) : Prop :=
  ∃ new, m !! old = Some new ∧ new < ncols
    ∧ Forall (λ row, is_Some (LT_GetValue h src row old)) (iterate src).

(** [col] sits in some bucket of [t2c]. *)
Definition bucketed (t2c : gmap TilePtr (list oid_t)) (col : oid_t) : Prop :=
  ∃ tile cols, t2c !! tile = Some cols ∧ col ∈ cols.

(** ** Driving the executor

    [ExecutorTestsUtil::ExecuteTile] passes one logical tile through an
    executor that has only one child. *)

(** Modelled from the spec: [AbstractExecutor::AddChild] and
    [AbstractExecutor::GetOutput] (not among the sources): a child is
    appended to [children_]; [GetOutput()] hands the held tile over,
    "ownership transferred to caller". *)
Definition AddChild (c : Child) (ex : MaterializationExecutor) : MaterializationExecutor :=
  mkExecutor (children_ ex ++ [c]) (node_ ex) (output_ ex).

Definition GetOutput (ex : MaterializationExecutor)
  : option LogicalTile * MaterializationExecutor :=
  (output_ ex, mkExecutor (children_ ex) (node_ ex) None).

(** What [ExecuteTile] observes: the result of [Init()], of the first
    [Execute()], the tile [GetOutput()] returned and the result of the second
    [Execute()]; the function itself returns the tile. *)
Record ExecuteTile_run := mkExecuteTile_run {
  run_init : outcome bool;
  run_first : bool;
  run_result : option LogicalTile;
  run_second : bool;
  run_heap : Heap
}.

(** The four expectations of [ExecuteTile]: [EXPECT_TRUE(executor->Init())],
    [EXPECT_TRUE(executor->Execute())], [EXPECT_THAT(result_logical_tile,
    NotNull())] and [EXPECT_THAT(executor->Execute(), false)]. *)
Definition expectations_met (r : ExecuteTile_run) : Prop :=
  run_init r = Returns true ∧ run_first r = true
  ∧ is_Some (run_result r) ∧ run_second r = false.

Section Driver.

Variable iter_cols : gmap oid_t oid_t → list (oid_t * oid_t).
Variable iter_tiles : gmap TilePtr (list oid_t) → list (TilePtr * list oid_t).

(** [ExecuteTile]: the mock child answers [DInit()] with true, [DExecute()]
    with true and then false, and [GetOutput()] with the source tile;
    [Execute()] of the executor under test runs its [DExecute]. *)
Definition ExecuteTile (ndebug : bool) (h : Heap) (executor : MaterializationExecutor)
    (source_logical_tile : LogicalTile) : option ExecuteTile_run :=
  let child_executor := mkChild true [Some source_logical_tile; None] None in
  let executor := AddChild child_executor executor in
  let init := Init ndebug executor in
  '(first, h, executor) ← DExecute iter_cols iter_tiles h executor;
  let '(result_logical_tile, executor) := GetOutput executor in
  '(second, h, executor) ← DExecute iter_cols iter_tiles h executor;
  Some (mkExecuteTile_run init first result_logical_tile second h).

End Driver.

(** A destination tile that already holds a value in its third column, and a
    pass-through plan node. *)
Definition used_tile : Tile :=
  mkTile (omap GetColumnInfo [3; 0; 1]) 2 {[ (0, 2) := IntegerValue 7 ]}.

Definition pass_through_node : MaterializationNode :=
  mkMaterializationNode None ∅ false.

(** What the copy of old column [old] into [dest] needs to run to its end:
    the column is a key of the mapping, every yielded row can be read in it
    and, unless the source yields no row at all, the new column exists in
    [dest] and [dest] has a slot for every row. *)
Definition copy_ok (h : Heap) (src : LogicalTile) (m : gmap oid_t oid_t)
    (dest : Tile) (old : oid_t) : Prop :=
  ∃ new, m !! old = Some new
    ∧ Forall (λ row, is_Some (LT_GetValue h src row old)) (iterate src)
    ∧ (iterate src = []
       ∨ (new < length (tile_schema dest) ∧ length (iterate src) ≤ tile_capacity dest)).

(** [t2c] groups the columns [keys] by their base tile: a bucket is never
    empty, lists no column twice, and holds exactly the columns of [keys]
    whose base tile is the bucket's key; and the base tile of every column of
    [keys] has a bucket. *)
Definition buckets_of (src : LogicalTile) (keys : list oid_t)
    (t2c : gmap TilePtr (list oid_t)) : Prop :=
  (∀ tile cols, t2c !! tile = Some cols →
     cols ≠ [] ∧ NoDup cols
     ∧ ∀ col, col ∈ cols ↔ col ∈ keys ∧ GetBaseTile (lt_schema src) col = Some tile)
  ∧ (∀ col tile, col ∈ keys → GetBaseTile (lt_schema src) col = Some tile →
       is_Some (t2c !! tile)).

(** The buckets [GenerateTileToColMap] builds for the identity mapping of
    the sample view. *)
Definition sample_buckets : gmap TilePtr (list oid_t) :=
  <[1 := [0; 1]]> (<[2 := [2; 3]]> ∅).

(** The buckets of [reorder_node]'s and of [clash_node]'s mapping, a plan
    node whose mapping names a column the sample view does not have, one
    with a schema and nothing mapped, and two more executors: one that
    passes tiles through, one whose child delivers a view without rows
    before the sample view. *)
Definition reorder_buckets : gmap TilePtr (list oid_t) :=
  <[1 := [0]]> (<[2 := [3]]> ∅).

Definition clash_buckets : gmap TilePtr (list oid_t) :=
  <[1 := [0]]> (<[3 := [1]]> ∅).

Definition dangling_node : MaterializationNode :=
  mkMaterializationNode (Some (omap GetColumnInfo [0])) {[ 5 := 0 ]} true.

Definition blank_node : MaterializationNode :=
  mkMaterializationNode (Some (omap GetColumnInfo [0; 1])) ∅ true.

Definition pass_through_executor : MaterializationExecutor :=
  mkExecutor [mkChild true [Some sample_source; None] None] (Some pass_through_node) None.

Definition gap_executor : MaterializationExecutor :=
  mkExecutor [mkChild true [Some empty_view; Some sample_source; None] None] None None.

End Executor.

Module Storage.
Import Executor.

(** ** Tuples, item pointers, tile groups *)

Abbreviation txn_id_t := nat.
Abbreviation cid_t := nat.

(** [storage::Tuple]: "an ephemeral, schema-bound value vector". *)
Definition Tuple := list Value.

Definition IsNull (v : Value) : bool :=
  match v with
  | NullValue | NullStringValue => true
  | _ => false
  end.

(** [ItemPointer]: "(tile-group identifier, slot offset)"; the tests read the
    two fields as [block] and [offset]. *)
Record ItemPointer := mkItemPointer {
  block : oid_t;
  offset : oid_t
}.

#[global] Instance ItemPointer_eq_dec : EqDecision ItemPointer.
Proof. solve_decision. Defined.

(** Modelled from the spec: [storage::TileGroup] (not among the sources).
    A group has a fixed capacity and a slot cursor; each allocated slot holds
    the copied values, its insert-transaction-id and a commit id that is
    "initially uncommitted" and is set by [CommitInsertedTuple]. *)
Record Slot := mkSlot {
  slot_values : Tuple;
  slot_txn : txn_id_t;
  slot_commit : option cid_t
}.

Record TileGroup := mkTileGroup {
  tg_capacity : nat;
  tg_slots : list Slot
}.

Definition GetNextTupleSlot (tg : TileGroup) : nat := length (tg_slots tg).

(** Modelled from the spec: [TileGroup::InsertTuple] "atomically reserves
    the next free slot (fails - returns an invalid slot sentinel - if the
    group is at capacity), copies the tuple's column values ... and stamps
    the slot's insert-transaction-id."  [None] is the sentinel. *)
Definition TileGroup_InsertTuple (txn : txn_id_t) (tuple : Tuple) (tg : TileGroup)
  : option oid_t * TileGroup :=
  if GetNextTupleSlot tg <? tg_capacity tg
  then (Some (GetNextTupleSlot tg),
        mkTileGroup (tg_capacity tg) (tg_slots tg ++ [mkSlot tuple txn None]))
  else (None, tg).

(** Modelled from the spec: [CommitInsertedTuple(slot, commit_id)] "stamps
    the visibility/begin-commit id". *)
Definition CommitInsertedTuple (slot : oid_t) (commit_id : cid_t) (tg : TileGroup)
  : TileGroup :=
  mkTileGroup (tg_capacity tg)
    (alter (λ s, mkSlot (slot_values s) (slot_txn s) (Some commit_id)) slot (tg_slots tg)).

(** ** Indexes *)

(** Modelled from the spec: [index::Index] (a collaborator, not among the
    sources): "maps a key-tuple to one or more stable tuple locations";
    the test utilities build one from the key attributes and a [unique]
    flag. *)
Record Index := mkIndex {
  unique_keys : bool;
  key_attrs : list oid_t;
  entries : list (Tuple * ItemPointer)
}.

(** The key projection of a tuple. *)
Definition key_of (idx : Index) (tuple : Tuple) : Tuple :=
  omap (λ col, tuple !! col) (key_attrs idx).

Definition Exists_key (key : Tuple) (idx : Index) : bool :=
  existsb (λ e, bool_decide (e.1 = key)) (entries idx).

Definition InsertEntry (key : Tuple) (location : ItemPointer) (idx : Index) : Index :=
  mkIndex (unique_keys idx) (key_attrs idx) (entries idx ++ [(key, location)]).

Definition DeleteEntry (key : Tuple) (location : ItemPointer) (idx : Index) : Index :=
  mkIndex (unique_keys idx) (key_attrs idx)
    (filter (λ e, e ≠ (key, location)) (entries idx)).

(** The insert into one index; a unique index refuses a key it holds. *)
Definition TryInsertEntry (key : Tuple) (location : ItemPointer) (idx : Index)
  : option Index :=
  if unique_keys idx && Exists_key key idx then None
  else Some (InsertEntry key location idx).

(** ** The table *)

(** The data members of [Table] in [table.h] that the operations use. *)
Record Table := mkTable {
  schema : Schema;
  table_name : string;
  tile_groups : list TileGroup;
  indexes : list Index;
  tuples_per_tilegroup : nat
}.

(** [TableFactory::GetTable]: the [Table] constructor leaves [tile_groups]
    and [indexes] empty, and [tuples_per_tilegroup] has its default, 1000. *)
Definition GetTable (schema : Schema) (table_name : string) : Table :=
  mkTable schema table_name [] [] 1000.

(** [GetTileGroup]: [assert(tile_group_id < tile_groups.size());
    return tile_groups[tile_group_id];]. *)
Definition GetTileGroup (ndebug : bool) (tile_group_id : oid_t) (t : Table)
  : outcome TileGroup :=
  if negb ndebug && negb (tile_group_id <? length (tile_groups t))
  then AssertionFailure
  else match tile_groups t !! tile_group_id with
       | Some tg => Returns tg
       | None => UndefinedBehaviour
       end.

Definition NumTileGroups (t : Table) : nat := length (tile_groups t).

Definition GetIndexCount (t : Table) : nat := length (indexes t).

Definition set_tile_groups (tgs : list TileGroup) (t : Table) : Table :=
  mkTable (schema t) (table_name t) tgs (indexes t) (tuples_per_tilegroup t).

Definition set_indexes (idxs : list Index) (t : Table) : Table :=
  mkTable (schema t) (table_name t) (tile_groups t) idxs (tuples_per_tilegroup t).

(** Modelled from the spec: [Table::AddTileGroup] and
    [Table::AddDefaultTileGroup] (declared in [table.h], defined elsewhere):
    the group list is "append-only; referenced by position", a default group
    has "capacity = configured tuples-per-group". *)
Definition AddTileGroup (tg : TileGroup) (t : Table) : Table :=
  set_tile_groups (tile_groups t ++ [tg]) t.

Definition AddDefaultTileGroup (t : Table) : oid_t * Table :=
  (length (tile_groups t), AddTileGroup (mkTileGroup (tuples_per_tilegroup t) []) t).

(** Modelled from the spec: [Table::CheckNulls] (declared in [table.h],
    defined elsewhere): "tuple is rejected (constraint violation) if any
    non-nullable column holds a null value".  It returns true when the tuple
    passes. *)
Definition CheckNulls (t : Table) (tuple : Tuple) : bool :=
  forallb (λ cv, allow_null cv.1 || negb (IsNull cv.2)) (zip (schema t) tuple).

(** Modelled from the spec: [Table::TryInsertInIndexes] (declared in
    [table.h], defined elsewhere): "attempt to insert the key projection into
    every index ...; if any unique-index insert fails, ... remove any index
    entries already inserted for this tuple".  [done] are the indexes already
    inserted into, [todo] the ones still to go. *)
Fixpoint TryInsertInIndexes_loop (tuple : Tuple) (location : ItemPointer)
    (done todo : list Index) : bool * list Index :=
  match todo with
  | [] => (true, done)
  | idx :: rest =>
      match TryInsertEntry (key_of idx tuple) location idx with
      | Some idx' => TryInsertInIndexes_loop tuple location (done ++ [idx']) rest
      | None =>
          (false,
           map (λ prev, DeleteEntry (key_of prev tuple) location prev) done ++ idx :: rest)
      end
  end.

Definition TryInsertInIndexes (tuple : Tuple) (location : ItemPointer) (t : Table)
  : bool * Table :=
  let '(ok, idxs) := TryInsertInIndexes_loop tuple location [] (indexes t) in
  (ok, set_indexes idxs t).

(** What [Table::InsertTuple] reports: the item pointer, or one of the
    failures.  "Table full" is the invalid sentinel; the two constraint
    violations are the variants the design notes name. *)
Inductive InsertResult :=
  | Inserted (location : ItemPointer)
  | TableFull
  | NullViolation
  | UniqueKeyViolation.

Definition is_constraint_violation (r : InsertResult) : bool :=
  match r with
  | NullViolation | UniqueKeyViolation => true
  | _ => false
  end.

Definition is_error (r : InsertResult) : bool :=
  match r with
  | Inserted _ => false
  | _ => true
  end.

(** Whether the last group of the table can take one more tuple. *)
Definition has_free_slot (t : Table) : bool :=
  match last (tile_groups t) with
  | Some tg => GetNextTupleSlot tg <? tg_capacity tg
  | None => false
  end.

(** Modelled from the spec: [Table::InsertTuple] (declared in [table.h],
    defined elsewhere), section 4.4: the null check comes "before slot
    allocation"; (1) if the current group has no free slot a fresh one is
    appended; (2) the insert is delegated to that group; (3) the key
    projections go into every index, a failure there being reported with the
    slot "left allocated"; (4) on success the item pointer is returned. *)
Definition InsertTuple (txn : txn_id_t) (tuple : Tuple) (t : Table)
  : InsertResult * Table :=
  if negb (CheckNulls t tuple) then (NullViolation, t)
  else
    let t := if has_free_slot t then t else (AddDefaultTileGroup t).2 in
    let tile_group_id := NumTileGroups t - 1 in
    match tile_groups t !! tile_group_id with
    | None => (TableFull, t)
    | Some tg =>
        match TileGroup_InsertTuple txn tuple tg with
        | (None, _) => (TableFull, t)
        | (Some slot, tg') =>
            let location := mkItemPointer tile_group_id slot in
            let t := set_tile_groups (<[tile_group_id := tg']> (tile_groups t)) t in
            let '(ok, t) := TryInsertInIndexes tuple location t in
            if ok then (Inserted location, t) else (UniqueKeyViolation, t)
        end
    end.

(** Inserting a sequence of tuples one after the other. *)
Fixpoint InsertTuples (txn : txn_id_t) (tuples : list Tuple) (t : Table)
  : list InsertResult * Table :=
  match tuples with
  | [] => ([], t)
  | tuple :: rest =>
      let '(r, t) := InsertTuple txn tuple t in
      let '(rs, t) := InsertTuples txn rest t in
      (r :: rs, t)
  end.

(** The slot an item pointer addresses, and whether a reader may see it. *)
Definition slot_at (t : Table) (location : ItemPointer) : option Slot :=
  tg ← tile_groups t !! block location;
  tg_slots tg !! offset location.

Definition visible (t : Table) (location : ItemPointer) : bool :=
  match slot_at t location with
  | Some s => bool_decide (is_Some (slot_commit s))
  | None => false
  end.

(** Modelled from the spec: the "commit/visibility step" of section 4.4 (4)
    on a table: [CommitInsertedTuple] on the group and the slot that the item
    pointer names.  Nothing else in the model sets a commit id. *)
Definition CommitTuple (location : ItemPointer) (commit_id : cid_t) (t : Table) : Table :=
  set_tile_groups
    (alter (CommitInsertedTuple (offset location) commit_id) (block location)
       (tile_groups t)) t.

(** Every index entry points at an allocated slot (invariant I5). *)
Definition entries_allocated (t : Table) : Prop :=
  Forall (λ idx, Forall (λ e, is_Some (slot_at t e.2)) (entries idx)) (indexes t).

(** The number of tuples each group holds. *)
Definition group_sizes (t : Table) : list nat :=
  map GetNextTupleSlot (tile_groups t).

(** A table without indexes that holds [n] tuples in groups of capacity
    [C]: all groups but the last are full, the last one holds at least one
    tuple. *)
Definition packed (C n : nat) (t : Table) : Prop :=
  tuples_per_tilegroup t = C ∧ indexes t = []
  ∧ ((n = 0 ∧ tile_groups t = [])
     ∨ ∃ full last, tile_groups t = full ++ [last]
         ∧ Forall (λ g, tg_capacity g = C ∧ GetNextTupleSlot g = C) full
         ∧ tg_capacity last = C
         ∧ 1 ≤ GetNextTupleSlot last ≤ C
         ∧ length full * C + GetNextTupleSlot last = n).

(** Some unique index already holds the key of the tuple. *)
Definition key_collision (tuple : Tuple) (idxs : list Index) : Prop :=
  Exists (λ idx, unique_keys idx = true ∧ Exists_key (key_of idx tuple) idx = true) idxs.

(** No entry of the indexes points at [location]. *)
Definition no_entry_for (location : ItemPointer) (idxs : list Index) : Prop :=
  Forall (λ idx, Forall (λ e, e.2 ≠ location) (entries idx)) idxs.

(** ** The caller of [InsertTuple] *)

(** Modelled from the spec: the transaction layer (a collaborator, not among
    the sources), section 4.4 (4): "On success, returns the ItemPointer; the
    caller (transaction layer) later calls the commit/visibility step."  The
    caller holds the table and the item pointers that [InsertTuple] has
    returned to it; a failed insert returns none.  It asks for inserts and
    for the commit of a pointer it holds; a commit of anything else is not a
    request of the protocol ([None]). *)
Inductive Request :=
  | DoInsert (txn : txn_id_t) (tuple : Tuple)
  | DoCommit (location : ItemPointer) (commit_id : cid_t).

Record Caller := mkCaller {
  cl_table : Table;
  cl_handed : list ItemPointer
}.

Definition serve (rq : Request) (c : Caller) : option Caller :=
  match rq with
  | DoInsert txn tuple =>
      let '(r, t) := InsertTuple txn tuple (cl_table c) in
      Some (mkCaller t
              match r with
              | Inserted location => location :: cl_handed c
              | _ => cl_handed c
              end)
  | DoCommit location commit_id =>
      if bool_decide (location ∈ cl_handed c)
      then Some (mkCaller (CommitTuple location commit_id (cl_table c)) (cl_handed c))
      else None
  end.

Fixpoint serve_all (rqs : list Request) (c : Caller) : option Caller :=
  match rqs with
  | [] => Some c
  | rq :: rest => c' ← serve rq c; serve_all rest c'
  end.

(** ** Concrete tables

    The table of [ExecutorTestsUtil::CreateTable]: the four sample columns;
    the unique primary index on column 0 is added first, the non-unique
    secondary index on columns 0 and 1 second. *)
Definition TEST_TABLE : Table :=
  mkTable (omap GetColumnInfo [0; 1; 2; 3]) "TEST_TABLE" []
    [mkIndex true [0] []; mkIndex false [0; 1] []] 1000.

(** A table for the rollback scenario of section 8, "a tuple that violates a
    unique secondary index, after already having been added to a non-unique
    index".  No table of the sources has a unique secondary index; this one
    is [TEST_TABLE] with a third index, unique on column 1, added last. *)
Definition UNIQUE_SECONDARY_TABLE : Table :=
  set_indexes (indexes TEST_TABLE ++ [mkIndex true [1] []]) TEST_TABLE.

(** [ExecutorTestsUtil::GetTuple] and [GetNullTuple]; [PopulatedValue(id,
    column)], which is defined outside the sources, is taken to be
    [10 * id + column]. *)
Definition GetTuple (tuple_id : nat) : Tuple :=
  [IntegerValue (Z.of_nat (10 * tuple_id));
   IntegerValue (Z.of_nat (10 * tuple_id + 1));
   DoubleValue (Z.of_nat (10 * tuple_id + 2));
   StringValue "12345"].

Definition GetNullTuple : Tuple :=
  [NullValue; NullValue; NullValue; NullStringValue].

(** A tuple that differs from [GetTuple 1] in column 0 and agrees with it in
    column 1: it collides on the unique index on column 1 only. *)
Definition GetSecondaryDuplicate : Tuple := <[1 := IntegerValue 11]> (GetTuple 2).

End Storage.

Module ExecutorFacts.
Import Executor.

(** ** The copy loops *)

Lemma Tile_SetValue_Some v slot col t :
  slot < tile_capacity t → col < length (tile_schema t) →
  Tile_SetValue v slot col t =
    Some (mkTile (tile_schema t) (tile_capacity t) (<[(slot, col) := v]> (tile_data t))).
Proof.
  intros Hs Hc. unfold Tile_SetValue, in_range.
  apply Nat.ltb_lt in Hs, Hc. by rewrite Hs, Hc.
Qed.

Lemma Tile_SetValue_None_slot v slot col t :
  tile_capacity t ≤ slot → Tile_SetValue v slot col t = None.
Proof.
  intros Hs. unfold Tile_SetValue, in_range.
  apply Nat.ltb_ge in Hs. by rewrite Hs.
Qed.

(** One column copied: the cells [(k, new) .. (k + n - 1, new)] receive the
    source's values in iteration order, every other cell is left alone. *)
Lemma copy_rows_spec h src old new rows : ∀ k dest,
  new < length (tile_schema dest) →
  k + length rows ≤ tile_capacity dest →
  Forall (λ row, is_Some (LT_GetValue h src row old)) rows →
  ∃ dest', copy_rows h src old new rows k dest = Some dest'
    ∧ tile_schema dest' = tile_schema dest
    ∧ tile_capacity dest' = tile_capacity dest
    ∧ (∀ i row, rows !! i = Some row →
         tile_data dest' !! (k + i, new) = LT_GetValue h src row old)
    ∧ (∀ r c, ¬ (c = new ∧ k ≤ r < k + length rows) →
         tile_data dest' !! (r, c) = tile_data dest !! (r, c)).
Proof.
  induction rows as [|row rows IH]; intros k dest Hcol Hcap Hread.
  - exists dest. by split_and!.
  - apply Forall_cons in Hread as [[v Hv] Hread]. simpl in Hcap.
    simpl. rewrite Hv. simpl.
    rewrite Tile_SetValue_Some by lia. simpl.
    destruct (IH (S k) (mkTile (tile_schema dest) (tile_capacity dest)
                          (<[(k, new) := v]> (tile_data dest))))
      as (dest' & Hrun & Hschema & Hcapacity & Hnew & Hold);
      [done|simpl; lia|done|].
    exists dest'. simpl in *. split_and!; try done.
    + intros [|i] row' Hi; simpl in Hi.
      * injection Hi as <-. rewrite Nat.add_0_r, Hold by lia.
        by rewrite lookup_insert_eq.
      * replace (k + S i) with (S k + i) by lia. by apply Hnew.
    + intros r c Hout. rewrite Hold by lia.
      apply lookup_insert_ne. intros [= <- <-]. lia.
Qed.

(** With more rows than slots the copy runs past the end of the tile. *)
Lemma copy_rows_overflow h src old new rows : ∀ k dest,
  k ≤ tile_capacity dest →
  tile_capacity dest < k + length rows →
  copy_rows h src old new rows k dest = None.
Proof.
  induction rows as [|row rows IH]; intros k dest Hk0 Hcap; simpl in *.
  - lia.
  - destruct (LT_GetValue h src row old) as [v|]; [simpl|done].
    destruct (decide (k < tile_capacity dest)) as [Hk|Hk].
    + unfold Tile_SetValue. destruct (in_range dest k new); [simpl|done].
      apply IH; simpl; lia.
    + rewrite Tile_SetValue_None_slot by lia. done.
Qed.

Lemma copy_columns_app h src m cols1 : ∀ cols2 dest,
  copy_columns h src m (cols1 ++ cols2) dest =
    copy_columns h src m cols1 dest ≫= copy_columns h src m cols2.
Proof.
  induction cols1 as [|old cols1 IH]; intros cols2 dest; simpl; [done|].
  destruct (m !! old) as [new|]; simpl; [|done].
  destruct (copy_rows h src old new (iterate src) 0 dest) as [dest1|]; simpl; [|done].
  apply IH.
Qed.

Lemma copy_buckets_join h src m kvs : ∀ dest,
  copy_buckets h src m kvs dest = copy_columns h src m (mjoin kvs.*2) dest.
Proof.
  induction kvs as [|kv kvs IH]; intros dest; simpl; [done|].
  rewrite copy_columns_app.
  destruct (copy_columns h src m kv.2 dest) as [dest1|]; simpl; [|done].
  apply IH.
Qed.

(** All columns copied, in any order and with any repetitions: under an
    injective mapping every mapped cell holds the source's value and every
    other cell is left alone. *)
Lemma copy_columns_spec h src m cols : ∀ dest,
  injective_mapping m →
  length (iterate src) ≤ tile_capacity dest →
  Forall (copyable h src m (length (tile_schema dest))) cols →
  ∃ dest', copy_columns h src m cols dest = Some dest'
    ∧ tile_schema dest' = tile_schema dest
    ∧ tile_capacity dest' = tile_capacity dest
    ∧ (∀ old new i row, old ∈ cols → m !! old = Some new →
         iterate src !! i = Some row →
         tile_data dest' !! (i, new) = LT_GetValue h src row old)
    ∧ (∀ r c, ¬ (r < length (iterate src) ∧ ∃ old, old ∈ cols ∧ m !! old = Some c) →
         tile_data dest' !! (r, c) = tile_data dest !! (r, c)).
Proof.
  induction cols as [|old0 cols IH]; intros dest Hinj Hcap Hcols.
  - exists dest. split_and!; try done. intros ? ? ? ? Hin. by apply elem_of_nil in Hin.
  - apply Forall_cons in Hcols as [(new0 & Hm0 & Hnew0 & Hread0) Hcols].
    destruct (copy_rows_spec h src old0 new0 (iterate src) 0 dest)
      as (dest1 & Hrun1 & Hschema1 & Hcap1 & Hnew1 & Hold1); [done|simpl; lia|done|].
    destruct (IH dest1) as (dest' & Hrun & Hschema & Hcapacity & Hnew & Hold);
      [done|lia|by rewrite Hschema1|].
    exists dest'. simpl. rewrite Hm0. simpl. rewrite Hrun1. simpl.
    split_and!; [done|congruence|congruence| |].
    + intros old new i row Hin Hm Hrow.
      destruct (decide (old ∈ cols)) as [Hc|Hc]; [by eapply Hnew|].
      apply elem_of_cons in Hin as [->|Hin]; [|done].
      assert (new = new0) as -> by congruence.
      rewrite Hold.
      * by apply (Hnew1 i row).
      * intros (_ & old' & Hin' & Hm'). apply Hc.
        by rewrite <- (Hinj _ _ _ Hm' Hm0).
    + intros r c Hout. rewrite Hold.
      * apply Hold1. intros (-> & Hr). apply Hout. split; [lia|].
        exists old0. split; [apply elem_of_cons; by left|done].
      * intros (Hr & old' & Hin' & Hm'). apply Hout. split; [done|].
        exists old'. split; [apply elem_of_cons; by right|done].
Qed.

(** Which cells hold a value after the columns were copied; this needs no
    injectivity. *)
Lemma copy_columns_cells h src m cols : ∀ dest,
  length (iterate src) ≤ tile_capacity dest →
  Forall (copyable h src m (length (tile_schema dest))) cols →
  ∃ dest', copy_columns h src m cols dest = Some dest'
    ∧ tile_schema dest' = tile_schema dest
    ∧ tile_capacity dest' = tile_capacity dest
    ∧ (∀ r c, is_Some (tile_data dest' !! (r, c)) ↔
         is_Some (tile_data dest !! (r, c))
         ∨ (r < length (iterate src) ∧ ∃ old, old ∈ cols ∧ m !! old = Some c)).
Proof.
  induction cols as [|old0 cols IH]; intros dest Hcap Hcols.
  - exists dest. split_and!; try done. intros r c. split; [by left|].
    intros [?|(_ & old & Hin & _)]; [done|]. by apply elem_of_nil in Hin.
  - apply Forall_cons in Hcols as [(new0 & Hm0 & Hnew0 & Hread0) Hcols].
    destruct (copy_rows_spec h src old0 new0 (iterate src) 0 dest)
      as (dest1 & Hrun1 & Hschema1 & Hcap1 & Hnew1 & Hold1); [done|simpl; lia|done|].
    destruct (IH dest1) as (dest' & Hrun & Hschema & Hcapacity & Hcells);
      [lia|by rewrite Hschema1|].
    exists dest'. simpl. rewrite Hm0. simpl. rewrite Hrun1. simpl.
    split_and!; [done|congruence|congruence|].
    intros r c. rewrite Hcells.
    assert (is_Some (tile_data dest1 !! (r, c)) ↔
            is_Some (tile_data dest !! (r, c)) ∨ (r < length (iterate src) ∧ c = new0))
      as ->.
    { destruct (decide (c = new0 ∧ r < length (iterate src))) as [[-> Hr]|Hout].
      - destruct (lookup_lt_is_Some_2 _ _ Hr) as [row Hrow].
        specialize (Hnew1 r row Hrow). simpl in Hnew1. rewrite Hnew1.
        rewrite Forall_forall in Hread0.
        assert (is_Some (LT_GetValue h src row old0))
          by (apply Hread0; by eapply list_elem_of_lookup_2).
        tauto.
      - rewrite Hold1 by lia. split; [by left|]. intros [?|[? ?]]; [done|tauto]. }
    split.
    + intros [[?|[Hr ->]]|(Hr & old & Hin & Hm)].
      * by left.
      * right. split; [done|]. exists old0. split; [|done]. apply elem_of_cons. by left.
      * right. split; [done|]. exists old. split; [|done]. apply elem_of_cons. by right.
    + intros [?|(Hr & old & Hin & Hm)]; [by left; left|].
      apply elem_of_cons in Hin as [->|Hin].
      * left. right. split; [done|congruence].
      * right. split; [done|]. by exists old.
Qed.

(** ** The bucket map *)

Lemma bucketed_push_col base c t2c col :
  bucketed (push_col base c t2c) col ↔ bucketed t2c col ∨ col = c.
Proof.
  unfold bucketed, push_col. split.
  - intros (tile & cols & Hl & Hin).
    destruct (decide (tile = base)) as [->|Hne].
    + rewrite lookup_insert_eq in Hl. injection Hl as <-.
      apply elem_of_app in Hin as [Hin|Hin].
      * destruct (t2c !! base) as [cols0|] eqn:E; simpl in Hin.
        -- left. by exists base, cols0.
        -- by apply elem_of_nil in Hin.
      * right. by apply list_elem_of_singleton in Hin.
    + rewrite lookup_insert_ne in Hl by done. left. by exists tile, cols.
  - intros [(tile & cols & Hl & Hin) | ->].
    + destruct (decide (tile = base)) as [->|Hne].
      * exists base, (cols ++ [c]). rewrite lookup_insert_eq, Hl. simpl.
        split; [done|]. apply elem_of_app. by left.
      * exists tile, cols. by rewrite lookup_insert_ne.
    + eexists base, _. rewrite lookup_insert_eq. split; [done|].
      apply elem_of_app. right. by apply list_elem_of_singleton.
Qed.

Lemma GenerateTileToColMap_loop_buckets src kvs : ∀ acc t2c,
  GenerateTileToColMap_loop kvs src acc = Some t2c →
  ∀ col, bucketed t2c col ↔ bucketed acc col ∨ col ∈ kvs.*1.
Proof.
  induction kvs as [|kv kvs IH]; intros acc t2c Hrun col; simpl in *.
  - injection Hrun as <-. rewrite elem_of_nil. tauto.
  - destruct (GetBaseTile (lt_schema src) kv.1) as [base|]; [simpl in Hrun|done].
    rewrite (IH _ _ Hrun), bucketed_push_col, elem_of_cons. tauto.
Qed.

Lemma GenerateTileToColMap_loop_total src kvs : ∀ acc,
  Forall (λ kv, is_Some (GetBaseTile (lt_schema src) kv.1)) kvs →
  is_Some (GenerateTileToColMap_loop kvs src acc).
Proof.
  induction kvs as [|kv kvs IH]; intros acc Hall; simpl; [done|].
  apply Forall_cons in Hall as [[base Hbase] Hall]. rewrite Hbase. simpl. by apply IH.
Qed.

Lemma bucketed_empty col : ¬ bucketed ∅ col.
Proof. intros (tile & cols & Hl & _). by rewrite lookup_empty in Hl. Qed.

(** ** Well-formed sources *)

Lemma source_ok_count h src :
  source_ok h src = true → GetTupleCount src = length (iterate src).
Proof.
  unfold source_ok. rewrite !andb_true_iff, Nat.eqb_eq. tauto.
Qed.

Lemma source_ok_column h src col :
  source_ok h src = true → col < NumCols (lt_schema src) →
  is_Some (physical_column h (lt_schema src) col)
  ∧ Forall (λ row, is_Some (LT_GetValue h src row col)) (iterate src).
Proof.
  unfold source_ok. rewrite !andb_true_iff. intros (_ & Hcols) Hlt.
  rewrite forallb_forall in Hcols.
  specialize (Hcols col). unfold column_ok in Hcols.
  destruct (physical_column h (lt_schema src) col) as [ci|].
  - split; [by eexists|]. apply Forall_forall. intros row Hrow.
    assert (forallb (λ row, bool_decide (is_Some (LT_GetValue h src row col)))
              (iterate src) = true) as Hall by (apply Hcols, in_seq; lia).
    rewrite forallb_forall in Hall. apply list_elem_of_In in Hrow.
    apply Hall in Hrow. by apply bool_decide_eq_true in Hrow.
  - discriminate Hcols. apply in_seq. lia.
Qed.

Lemma source_ok_schema h src :
  source_ok h src = true →
  ∃ schema, GetPhysicalSchema h src = Some schema
    ∧ length schema = NumCols (lt_schema src).
Proof.
  intros Hok. unfold GetPhysicalSchema.
  destruct (mapM (physical_column h (lt_schema src)) (seq 0 (NumCols (lt_schema src))))
    as [schema|] eqn:E.
  - exists schema. split; [done|]. apply length_mapM in E. by rewrite length_seq in E.
  - exfalso. assert (is_Some (mapM (physical_column h (lt_schema src))
                                (seq 0 (NumCols (lt_schema src))))) as [? Hs]; [|congruence].
    apply mapM_is_Some, Forall_forall. intros col Hcol.
    apply elem_of_seq in Hcol. apply (source_ok_column h src col Hok). lia.
Qed.

(** ** The identity mapping *)

Lemma identity_loop_lookup cols : ∀ (acc : gmap oid_t oid_t) col,
  foldl (λ m c, <[c := c]> m) acc cols !! col =
    if decide (col ∈ cols) then Some col else acc !! col.
Proof.
  induction cols as [|c cols IH]; intros acc col; simpl.
  - done.
  - rewrite IH.
    destruct (decide (col ∈ cols)) as [Hin|Hin], (decide (col ∈ c :: cols)) as [Hin'|Hin'];
      try done.
    + exfalso. apply Hin', elem_of_cons. by right.
    + apply elem_of_cons in Hin' as [->|?]; [|done]. by rewrite lookup_insert_eq.
    + rewrite lookup_insert_ne; [done|]. intros ->. apply Hin', elem_of_cons. by left.
Qed.

Lemma BuildIdentityMapping_lookup schema old new :
  BuildIdentityMapping schema !! old = Some new ↔ new = old ∧ old < length schema.
Proof.
  unfold BuildIdentityMapping, GetColumnCount. rewrite identity_loop_lookup.
  case_decide as H; rewrite elem_of_seq in H.
  - split; [intros [= <-]; lia|intros [-> _]; done].
  - rewrite lookup_empty. split; [done|intros [_ ?]; lia].
Qed.

Lemma BuildIdentityMapping_injective schema :
  injective_mapping (BuildIdentityMapping schema).
Proof.
  intros o1 o2 n H1 H2. apply BuildIdentityMapping_lookup in H1, H2. lia.
Qed.

(** ** The wrapping logical tile *)

Lemma wrap_schema_eq p ncols :
  wrap_schema p ncols =
    mkLogicalSchema (replicate ncols p) (seq 0 ncols) (replicate ncols true).
Proof.
  unfold wrap_schema. induction ncols as [|n IH]; [done|].
  rewrite seq_S, foldl_app, IH. simpl. unfold AddColumn. simpl.
  by rewrite <- !replicate_S_end.
Qed.

(** Reading through the wrapper reads the wrapped tile. *)
Lemma LT_GetValue_WrapTiles (h : Heap) p t own r c :
  LT_GetValue (<[p := t]> h) (WrapTiles p t own) r c = Tile_GetValue t r c.
Proof.
  unfold LT_GetValue, WrapTiles, GetBaseTile, GetOriginColumnId. simpl.
  rewrite wrap_schema_eq. simpl.
  destruct (decide (c < length (tile_schema t))) as [Hc|Hc].
  - rewrite lookup_replicate_2 by done. simpl. rewrite lookup_insert_eq. simpl.
    rewrite lookup_seq_lt by done. done.
  - rewrite (proj1 (lookup_replicate_None _ _ _)) by lia. simpl.
    unfold Tile_GetValue, in_range.
    assert ((c <? length (tile_schema t)) = false) as -> by (apply Nat.ltb_ge; lia).
    by rewrite andb_false_r.
Qed.

(** ** Materialization under any iteration order *)

Section AnyOrder.

Variable iter_cols : gmap oid_t oid_t → list (oid_t * oid_t).
Variable iter_tiles : gmap TilePtr (list oid_t) → list (TilePtr * list oid_t).
Hypothesis iter_cols_enum : ∀ m, iter_cols m ≡ₚ map_to_list m.
Hypothesis iter_tiles_enum : ∀ m, iter_tiles m ≡ₚ map_to_list m.

Lemma in_iter_cols (m : gmap oid_t oid_t) old :
  old ∈ (iter_cols m).*1 ↔ is_Some (m !! old).
Proof.
  rewrite (iter_cols_enum m), list_elem_of_fmap. split.
  - intros ([o n] & -> & Hin). apply elem_of_map_to_list in Hin. by eexists.
  - intros [n Hn]. exists (old, n). split; [done|]. by apply elem_of_map_to_list.
Qed.

Lemma in_iter_tiles (t2c : gmap TilePtr (list oid_t)) col :
  col ∈ mjoin (iter_tiles t2c).*2 ↔ bucketed t2c col.
Proof.
  rewrite (iter_tiles_enum t2c), list_elem_of_join. unfold bucketed. split.
  - intros (cols & Hcol & Hin). apply list_elem_of_fmap in Hin as ([tile cols'] & -> & Hin).
    apply elem_of_map_to_list in Hin. by exists tile, cols'.
  - intros (tile & cols & Hl & Hin). exists cols. split; [done|].
    apply list_elem_of_fmap. exists (tile, cols). split; [done|].
    by apply elem_of_map_to_list.
Qed.

(** The buckets hold exactly the keys of the mapping. *)
Lemma GenerateTileToColMap_buckets src (m : gmap oid_t oid_t) t2c :
  GenerateTileToColMap iter_cols m src ∅ = Some t2c →
  ∀ col, bucketed t2c col ↔ is_Some (m !! col).
Proof.
  intros Hrun col.
  rewrite (GenerateTileToColMap_loop_buckets _ _ _ _ Hrun), in_iter_cols.
  pose proof (bucketed_empty col). tauto.
Qed.

Lemma GenerateTileToColMap_spec src (m : gmap oid_t oid_t) :
  map_Forall (λ old _, old < NumCols (lt_schema src)) m →
  ∃ t2c, GenerateTileToColMap iter_cols m src ∅ = Some t2c
    ∧ ∀ col, bucketed t2c col ↔ is_Some (m !! col).
Proof.
  intros Hm. unfold GenerateTileToColMap.
  destruct (GenerateTileToColMap_loop_total src (iter_cols m) ∅) as [t2c Hrun].
  - apply Forall_forall. intros [old new] Hkv. simpl.
    apply lookup_lt_is_Some.
    assert (old ∈ (iter_cols m).*1) as Hold
      by (apply list_elem_of_fmap; by exists (old, new)).
    apply in_iter_cols in Hold as [n Hn]. by apply (Hm old n).
  - exists t2c. split; [done|]. by apply (GenerateTileToColMap_buckets src).
Qed.

(** The destination tile after [MaterializeByTiles], cell by cell. *)
Lemma MaterializeByTiles_spec h src (m : gmap oid_t oid_t) t2c dest :
  injective_mapping m →
  (∀ col, bucketed t2c col ↔ is_Some (m !! col)) →
  length (iterate src) ≤ tile_capacity dest →
  map_Forall (λ old new, new < length (tile_schema dest)
    ∧ Forall (λ row, is_Some (LT_GetValue h src row old)) (iterate src)) m →
  ∃ dest', MaterializeByTiles iter_tiles h src m t2c dest = Some dest'
    ∧ tile_schema dest' = tile_schema dest
    ∧ tile_capacity dest' = tile_capacity dest
    ∧ (∀ old new i row, m !! old = Some new → iterate src !! i = Some row →
         tile_data dest' !! (i, new) = LT_GetValue h src row old)
    ∧ (∀ r c, ¬ (r < length (iterate src) ∧ ∃ old, m !! old = Some c) →
         tile_data dest' !! (r, c) = tile_data dest !! (r, c)).
Proof.
  intros Hinj Hbuckets Hcap Hm. unfold MaterializeByTiles.
  rewrite copy_buckets_join.
  destruct (copy_columns_spec h src m (mjoin (iter_tiles t2c).*2) dest)
    as (dest' & Hrun & Hschema & Hcapacity & Hnew & Hold); [done|done| |].
  - apply Forall_forall. intros old Hold.
    apply in_iter_tiles, Hbuckets in Hold as [new Hnew].
    exists new. split; [done|]. by apply (Hm old new).
  - exists dest'. split_and!; try done.
    + intros old new i row Hl Hrow. apply (Hnew old new i row); try done.
      apply in_iter_tiles, Hbuckets. by eexists.
    + intros r c Hout. apply Hold. intros (Hr & old & _ & Hl). apply Hout. eauto.
Qed.

(** [Physify], cell by cell, for an injective mapping within range. *)
Lemma Physify_spec node h src sschema oschema (m : gmap oid_t oid_t) :
  source_ok h src = true →
  GetPhysicalSchema h src = Some sschema →
  resolve_mapping node sschema = (oschema, m) →
  injective_mapping m →
  mapping_in_range m src oschema →
  ∃ dest', Physify iter_cols iter_tiles node h src =
             Some (<[alloc h := dest']> h, WrapTiles (alloc h) dest' true)
    ∧ tile_schema dest' = oschema
    ∧ tile_capacity dest' = length (iterate src)
    ∧ (∀ old new i row, m !! old = Some new → iterate src !! i = Some row →
         tile_data dest' !! (i, new) = LT_GetValue h src row old)
    ∧ (∀ r c, ¬ (r < length (iterate src) ∧ ∃ old, m !! old = Some c) →
         tile_data dest' !! (r, c) = None).
Proof.
  intros Hok Hs Hres Hinj Hm. unfold Physify. rewrite Hs. simpl. rewrite Hres.
  destruct (GenerateTileToColMap_spec src m) as (t2c & Hgen & Hb).
  { intros old new Hl. by apply (Hm old new). }
  rewrite Hgen. simpl.
  destruct (MaterializeByTiles_spec h src m t2c (GetTempTile oschema (GetTupleCount src)))
    as (dest' & Hrun & Hschema & Hcapacity & Hnew & Hold); [done|done| | |].
  { simpl. by rewrite (source_ok_count h src Hok). }
  { intros old new Hl. destruct (Hm old new Hl) as [Hlt Hnew]. split; [done|].
    by apply (source_ok_column h src old Hok). }
  rewrite Hrun. simpl. exists dest'. split_and!; try done.
  rewrite Hcapacity. simpl. by apply source_ok_count with h.
Qed.

Lemma alloc_fresh (h : Heap) : h !! alloc h = None.
Proof. unfold alloc. pose proof (is_fresh (dom h)) as Hf. by apply not_elem_of_dom. Qed.

(** C1. Identity materialization: when [Physify] runs without a plan node,
    or with one that carries no schema, it returns a new logical tile that
    owns a new physical tile; the tile's rows are 0, 1, ..., n-1 where n is
    the number of rows the source yields, and the cell (i, col) of the output
    holds the value the source has at (its i-th yielded row, col), for every
    column of the source's schema (so for every valid one), whatever slot
    number that row has in the source. *)
Theorem Physify_identity node h src :
  implicit_identity node →
  source_ok h src = true →
  ∃ h' out p,
    Physify iter_cols iter_tiles node h src = Some (h', out)
    ∧ h !! p = None ∧ is_Some (h' !! p) ∧ (∀ q, q ≠ p → h' !! q = h !! q)
    ∧ own_base_tile out = true
    ∧ (∀ col, col < NumCols (lt_schema src) → GetBaseTile (lt_schema out) col = Some p)
    ∧ iterate out = seq 0 (length (iterate src))
    ∧ (∀ i row col, iterate src !! i = Some row → col < NumCols (lt_schema src) →
         is_Some (LT_GetValue h src row col)
         ∧ LT_GetValue h' out i col = LT_GetValue h src row col).
Proof.
  intros Hid Hok.
  destruct (source_ok_schema h src Hok) as (sschema & Hs & Hlen).
  assert (resolve_mapping node sschema = (sschema, BuildIdentityMapping sschema)) as Hres.
  { destruct node as [n|]; simpl in *; [by rewrite Hid|done]. }
  destruct (Physify_spec node h src sschema sschema (BuildIdentityMapping sschema))
    as (dest' & Hrun & Hschema & Hcapacity & Hnew & Hold); try done.
  { apply BuildIdentityMapping_injective. }
  { intros old new Hl. apply BuildIdentityMapping_lookup in Hl. lia. }
  exists (<[alloc h := dest']> h), (WrapTiles (alloc h) dest' true), (alloc h).
  split_and!; try done.
  - apply alloc_fresh.
  - rewrite lookup_insert_eq. by eexists.
  - intros q Hq. by rewrite lookup_insert_ne.
  - intros col Hcol. unfold WrapTiles, GetBaseTile. simpl.
    rewrite wrap_schema_eq, Hschema, Hlen. simpl. by apply lookup_replicate_2.
  - simpl. by rewrite Hcapacity.
  - intros i row col Hrow Hcol.
    split.
    + destruct (source_ok_column h src col Hok Hcol) as [_ Hread].
      rewrite Forall_forall in Hread. apply Hread. by eapply list_elem_of_lookup_2.
    + rewrite LT_GetValue_WrapTiles. unfold Tile_GetValue, in_range.
      rewrite Hschema, Hcapacity, Hlen.
      apply lookup_lt_Some in Hrow as Hi.
      apply Nat.ltb_lt in Hi as ->. apply Nat.ltb_lt in Hcol as Hcol'. rewrite Hcol'. simpl.
      apply (Hnew col col i row); [|done].
      apply BuildIdentityMapping_lookup. lia.
Qed.

(** C3 (as amended). Projection: for a plan node with a schema and a mapping
    that is injective and within range, [Physify] returns a tile with one
    column per column of that schema in which, for every pair old -> new of
    the mapping and every yielded row, the cell (i, new) holds the source's
    value at (i-th yielded row, old); a column that is not the image of any
    old column holds nothing, so a source column that is not mapped does not
    appear.  Such a mapping can reorder and drop columns; being keyed by the
    old column it sends each source column to one output column only, so it
    cannot duplicate one. *)
Theorem Physify_projection n oschema h src :
  node_schema n = Some oschema →
  injective_mapping (node_old_to_new_cols n) →
  mapping_in_range (node_old_to_new_cols n) src oschema →
  source_ok h src = true →
  ∃ h' out,
    Physify iter_cols iter_tiles (Some n) h src = Some (h', out)
    ∧ NumCols (lt_schema out) = length oschema
    ∧ (∀ old new i row,
         node_old_to_new_cols n !! old = Some new → iterate src !! i = Some row →
         is_Some (LT_GetValue h src row old)
         ∧ LT_GetValue h' out i new = LT_GetValue h src row old)
    ∧ (∀ r c, (∀ old, node_old_to_new_cols n !! old ≠ Some c) →
         LT_GetValue h' out r c = None)
    ∧ (∀ old new1 new2,
         node_old_to_new_cols n !! old = Some new1 →
         node_old_to_new_cols n !! old = Some new2 → new1 = new2).
Proof.
  intros Hn Hinj Hrange Hok.
  destruct (source_ok_schema h src Hok) as (sschema & Hs & Hlen).
  destruct (Physify_spec (Some n) h src sschema oschema (node_old_to_new_cols n))
    as (dest' & Hrun & Hschema & Hcapacity & Hnew & Hold); try done.
  { simpl. by rewrite Hn. }
  exists (<[alloc h := dest']> h), (WrapTiles (alloc h) dest' true).
  split_and!; try done.
  - unfold WrapTiles, NumCols. simpl.
    by rewrite wrap_schema_eq, Hschema; simpl; rewrite length_replicate.
  - intros old new i row Hl Hrow. destruct (Hrange old new Hl) as [Hlt Hnewlt].
    split.
    + destruct (source_ok_column h src old Hok Hlt) as [_ Hread].
      rewrite Forall_forall in Hread. apply Hread. by eapply list_elem_of_lookup_2.
    + rewrite LT_GetValue_WrapTiles. unfold Tile_GetValue, in_range.
      rewrite Hschema, Hcapacity.
      apply lookup_lt_Some in Hrow as Hi.
      apply Nat.ltb_lt in Hi as ->. apply Nat.ltb_lt in Hnewlt as ->. simpl.
      by apply (Hnew old new i row).
  - intros r c Hnone. rewrite LT_GetValue_WrapTiles. unfold Tile_GetValue.
    destruct (in_range dest' r c); [|done].
    apply Hold. intros (_ & old & Hl). by apply (Hnone old).
  - congruence.
Qed.

(** C9. Row indices written by [MaterializeByTiles]: when iteration over the
    source yields exactly [GetTupleCount()] rows, the copy into the tile
    [Physify] allocates (capacity [GetTupleCount()]) completes without a
    [SetValue] outside the tile, and in every copied column the cells that
    were written are exactly those of rows 0, 1, ..., n-1, n being the number
    of rows yielded. *)
Theorem MaterializeByTiles_rows h src (m : gmap oid_t oid_t) t2c oschema :
  GetTupleCount src = length (iterate src) →
  GenerateTileToColMap iter_cols m src ∅ = Some t2c →
  map_Forall (λ old new, new < length oschema
    ∧ Forall (λ row, is_Some (LT_GetValue h src row old)) (iterate src)) m →
  ∃ dest',
    MaterializeByTiles iter_tiles h src m t2c (GetTempTile oschema (GetTupleCount src))
      = Some dest'
    ∧ tile_capacity dest' = GetTupleCount src
    ∧ (∀ old new, m !! old = Some new →
         ∀ r, is_Some (tile_data dest' !! (r, new)) ↔ r < length (iterate src))
    ∧ (∀ r c, is_Some (tile_data dest' !! (r, c)) → r < tile_capacity dest').
Proof.
  intros Hcount Hgen Hm. unfold MaterializeByTiles. rewrite copy_buckets_join.
  pose proof (GenerateTileToColMap_buckets src m t2c Hgen) as Hb.
  destruct (copy_columns_cells h src m (mjoin (iter_tiles t2c).*2)
              (GetTempTile oschema (GetTupleCount src)))
    as (dest' & Hrun & Hschema & Hcapacity & Hcells).
  { simpl. lia. }
  { apply Forall_forall. intros old Hold.
    apply in_iter_tiles, Hb in Hold as [new Hnew].
    exists new. split; [done|]. by apply (Hm old new). }
  exists dest'. simpl in *. split_and!; try done.
  - intros old new Hl r. rewrite Hcells, lookup_empty. split.
    + intros [[? ?]|[? _]]; done.
    + intros Hr. right. split; [done|]. exists old. split; [|done].
      apply in_iter_tiles, Hb. by eexists.
  - intros r c. rewrite Hcells, lookup_empty. intros [[? ?]|[? _]]; [done|lia].
Qed.

End AnyOrder.

(** The proviso of C9 is needed: a view that yields more rows than
    [GetTupleCount()] reports makes the copy run past the end of the
    destination tile. *)
Example Physify_count_too_small :
  Physify map_to_list map_to_list None sample_heap short_count_view = None.
Proof. by vm_compute. Qed.

(** A mapping whose enumeration shows no new column twice is injective. *)
Lemma injective_mapping_NoDup (m : gmap oid_t oid_t) :
  NoDup (map_to_list m).*2 → injective_mapping m.
Proof.
  intros Hnd o1 o2 n H1 H2.
  apply elem_of_map_to_list, list_elem_of_lookup_1 in H1 as [i Hi].
  apply elem_of_map_to_list, list_elem_of_lookup_1 in H2 as [j Hj].
  assert (i = j) as ->.
  { apply (NoDup_lookup _ i j n Hnd); rewrite list_lookup_fmap.
    - by rewrite Hi.
    - by rewrite Hj. }
  congruence.
Qed.

Lemma Tile_eq t1 t2 :
  tile_schema t1 = tile_schema t2 → tile_capacity t1 = tile_capacity t2 →
  tile_data t1 = tile_data t2 → t1 = t2.
Proof. destruct t1, t2. simpl. by intros -> -> ->. Qed.

(** C4 (as amended). Batching by base tile: when the mapping is injective
    (and within range), [Physify] returns the same heap and the same tile
    whatever order the buckets of [tile_to_cols] are walked in and whatever
    order the columns were pushed into each bucket in, i.e. for any two
    enumerations of [old_to_new_cols] and of [tile_to_cols]; this holds in
    particular when the columns come from two or more base tiles. *)
Theorem Physify_order_irrelevant ic1 it1 ic2 it2 node h src sschema oschema
    (m : gmap oid_t oid_t) :
  (∀ m, ic1 m ≡ₚ map_to_list m) → (∀ m, it1 m ≡ₚ map_to_list m) →
  (∀ m, ic2 m ≡ₚ map_to_list m) → (∀ m, it2 m ≡ₚ map_to_list m) →
  source_ok h src = true →
  GetPhysicalSchema h src = Some sschema →
  resolve_mapping node sschema = (oschema, m) →
  injective_mapping m →
  mapping_in_range m src oschema →
  is_Some (Physify ic1 it1 node h src)
  ∧ Physify ic1 it1 node h src = Physify ic2 it2 node h src.
Proof.
  intros Hc1 Ht1 Hc2 Ht2 Hok Hs Hres Hinj Hrange.
  destruct (Physify_spec ic1 it1 Hc1 Ht1 node h src sschema oschema m)
    as (d1 & Hrun1 & Hschema1 & Hcap1 & Hnew1 & Hold1); try done.
  destruct (Physify_spec ic2 it2 Hc2 Ht2 node h src sschema oschema m)
    as (d2 & Hrun2 & Hschema2 & Hcap2 & Hnew2 & Hold2); try done.
  split; [by eexists|].
  rewrite Hrun1, Hrun2.
  assert (d1 = d2) as ->; [|done].
  apply Tile_eq; [congruence|congruence|].
  apply map_eq. intros [r c].
  destruct (decide (tile_data d1 !! (r, c) = tile_data d2 !! (r, c))) as [|Hne]; [done|].
  exfalso.
  assert (¬ (r < length (iterate src) ∧ ∃ old, m !! old = Some c)) as Hout.
  { intros (Hr & old & Hl). apply Hne.
    destruct (lookup_lt_is_Some_2 _ _ Hr) as [row Hrow].
    by rewrite (Hnew1 old c r row), (Hnew2 old c r row). }
  apply Hne. by rewrite Hold1, Hold2.
Qed.

(** *** The theorems at the sample tiles *)

(** Identity materialization of the view that selects slots 2 and 0: output
    row 0 is the source's slot 2, output row 1 its slot 0. *)
Lemma Physify_identity_witness :
  ∃ h' out,
    Physify map_to_list map_to_list None sample_heap sample_source = Some (h', out)
    ∧ iterate out = [0; 1]
    ∧ LT_GetValue h' out 0 3 = Some (StringValue "23")
    ∧ LT_GetValue h' out 1 0 = Some (IntegerValue 0).
Proof.
  destruct (Physify_identity map_to_list map_to_list
              (λ _, reflexivity _) (λ _, reflexivity _) None sample_heap sample_source)
    as (h' & out & p & Hrun & _ & _ & _ & _ & _ & Hrows & Hvals);
    [exact I|reflexivity|].
  exists h', out. split; [exact Hrun|]. split; [exact Hrows|].
  destruct (Hvals 0 2 3) as [_ ->]; [reflexivity|vm_compute; lia|].
  destruct (Hvals 1 0 0) as [_ ->]; [reflexivity|vm_compute; lia|].
  split; reflexivity.
Defined.

(** Projection that keeps COL_D and COL_A in that order. *)
Lemma Physify_projection_witness :
  ∃ h' out,
    Physify map_to_list map_to_list (Some reorder_node) sample_heap sample_source
      = Some (h', out)
    ∧ NumCols (lt_schema out) = 2
    ∧ LT_GetValue h' out 0 0 = Some (StringValue "23")
    ∧ LT_GetValue h' out 0 1 = Some (IntegerValue 20)
    ∧ LT_GetValue h' out 0 2 = None.
Proof.
  destruct (Physify_projection map_to_list map_to_list
              (λ _, reflexivity _) (λ _, reflexivity _)
              reorder_node (omap GetColumnInfo [3; 0]) sample_heap sample_source)
    as (h' & out & Hrun & Hcols & Hvals & Hnone & _).
  - reflexivity.
  - apply injective_mapping_NoDup. by_computation.
  - unfold mapping_in_range. by_computation.
  - reflexivity.
  - exists h', out. split; [exact Hrun|]. split; [exact Hcols|].
    destruct (Hvals 3 0 0 2) as [_ ->]; [by vm_compute|reflexivity|].
    destruct (Hvals 0 1 0 2) as [_ ->]; [by vm_compute|reflexivity|].
    rewrite (Hnone 0 2); [done|].
    intros old Hold. apply elem_of_map_to_list in Hold. vm_compute in Hold.
    repeat (apply elem_of_cons in Hold as [[=]|Hold]). by apply elem_of_nil in Hold.
Defined.

(** Without injectivity the projection property fails: [clash_node] sends
    old columns 0 and 1 both to new column 0; the source is well formed and
    the mapping within range, and yet output column 0 differs from the
    source's column 1, which the mapping sends there.  Walking the buckets in
    the opposite order does not help: then output column 0 differs from the
    source's column 0. *)
Lemma Physify_projection_clash :
  source_ok join_heap join_source = true
  ∧ mapping_in_range (node_old_to_new_cols clash_node) join_source (omap GetColumnInfo [0])
  ∧ node_old_to_new_cols clash_node !! 0 = Some 0
  ∧ node_old_to_new_cols clash_node !! 1 = Some 0
  ∧ iterate join_source !! 0 = Some 0
  ∧ (∃ h' out,
      Physify map_to_list map_to_list (Some clash_node) join_heap join_source
        = Some (h', out)
      ∧ LT_GetValue h' out 0 0 ≠ LT_GetValue join_heap join_source 0 1)
  ∧ (∃ h' out,
      Physify map_to_list (reverse ∘ map_to_list) (Some clash_node) join_heap join_source
        = Some (h', out)
      ∧ LT_GetValue h' out 0 0 ≠ LT_GetValue join_heap join_source 0 0).
Proof.
  split; [reflexivity|]. split; [unfold mapping_in_range; by_computation|].
  split; [by vm_compute|]. split; [by vm_compute|]. split; [reflexivity|].
  split.
  - destruct (Physify map_to_list map_to_list (Some clash_node) join_heap join_source)
      as [[h' out]|] eqn:E; [|by vm_compute in E].
    exists h', out. split; [done|].
    intros Heq.
    assert (match Physify map_to_list map_to_list (Some clash_node) join_heap join_source
            with
            | Some (h', out) => LT_GetValue h' out 0 0
            | None => None
            end = Some (IntegerValue 0)) as Hcell by (by vm_compute).
    rewrite E, Heq in Hcell. by vm_compute in Hcell.
  - destruct (Physify map_to_list (reverse ∘ map_to_list) (Some clash_node)
                join_heap join_source)
      as [[h' out]|] eqn:E; [|by vm_compute in E].
    exists h', out. split; [done|].
    intros Heq.
    assert (match Physify map_to_list (reverse ∘ map_to_list) (Some clash_node)
                    join_heap join_source
            with
            | Some (h', out) => LT_GetValue h' out 0 0
            | None => None
            end = Some (IntegerValue 100)) as Hcell by (by vm_compute).
    rewrite E, Heq in Hcell. by vm_compute in Hcell.
Qed.

(** The same clash makes the output depend on the order in which the two
    buckets (base tiles 1 and 3) are walked: walking them in the opposite
    order yields a different tile. *)
Lemma Physify_order_clash :
  (∀ m : gmap TilePtr (list oid_t), (reverse ∘ map_to_list) m ≡ₚ map_to_list m)
  ∧ source_ok join_heap join_source = true
  ∧ mapping_in_range (node_old_to_new_cols clash_node) join_source (omap GetColumnInfo [0])
  ∧ GetBaseTile (lt_schema join_source) 0 ≠ GetBaseTile (lt_schema join_source) 1
  ∧ Physify map_to_list map_to_list (Some clash_node) join_heap join_source
    ≠ Physify map_to_list (reverse ∘ map_to_list) (Some clash_node) join_heap join_source.
Proof.
  split; [intros m; simpl; apply reverse_Permutation|].
  split; [reflexivity|]. split; [unfold mapping_in_range; by_computation|].
  split; [by vm_compute|].
  intros Heq.
  apply (f_equal (λ r, match r with
                       | Some (h', out) => LT_GetValue h' out 0 0
                       | None => None
                       end)) in Heq.
  by vm_compute in Heq.
Qed.

(** The two orders agree once the mapping is injective. *)
Lemma Physify_order_irrelevant_witness :
  is_Some (Physify map_to_list map_to_list (Some reorder_node) sample_heap sample_source)
  ∧ Physify map_to_list map_to_list (Some reorder_node) sample_heap sample_source
    = Physify (reverse ∘ map_to_list) (reverse ∘ map_to_list)
        (Some reorder_node) sample_heap sample_source.
Proof.
  apply (Physify_order_irrelevant map_to_list map_to_list
           (reverse ∘ map_to_list) (reverse ∘ map_to_list)
           (Some reorder_node) sample_heap sample_source
           (omap GetColumnInfo [0; 1; 2; 3]) (omap GetColumnInfo [3; 0])
           (node_old_to_new_cols reorder_node)).
  - intros m. reflexivity.
  - intros m. reflexivity.
  - intros m. simpl. apply reverse_Permutation.
  - intros m. simpl. apply reverse_Permutation.
  - reflexivity.
  - reflexivity.
  - reflexivity.
  - apply injective_mapping_NoDup. by_computation.
  - unfold mapping_in_range. by_computation.
Defined.

(** The copy of the four columns of the sample view into a tile of capacity
    [GetTupleCount()] = 2 writes rows 0 and 1 only. *)
Lemma MaterializeByTiles_rows_witness :
  ∃ t2c dest',
    GenerateTileToColMap map_to_list
      (BuildIdentityMapping (omap GetColumnInfo [0; 1; 2; 3])) sample_source ∅ = Some t2c
    ∧ MaterializeByTiles map_to_list sample_heap sample_source
        (BuildIdentityMapping (omap GetColumnInfo [0; 1; 2; 3])) t2c
        (GetTempTile (omap GetColumnInfo [0; 1; 2; 3]) (GetTupleCount sample_source))
      = Some dest'
    ∧ tile_capacity dest' = 2
    ∧ (is_Some (tile_data dest' !! (1, 3)) ↔ 1 < 2)
    ∧ (is_Some (tile_data dest' !! (2, 3)) ↔ 2 < 2).
Proof.
  destruct (GenerateTileToColMap map_to_list
              (BuildIdentityMapping (omap GetColumnInfo [0; 1; 2; 3])) sample_source ∅)
    as [t2c|] eqn:E; [|by vm_compute in E].
  destruct (MaterializeByTiles_rows map_to_list map_to_list
              (λ _, reflexivity _) (λ _, reflexivity _)
              sample_heap sample_source
              (BuildIdentityMapping (omap GetColumnInfo [0; 1; 2; 3])) t2c
              (omap GetColumnInfo [0; 1; 2; 3]))
    as (dest' & Hrun & Hcap & Hrows & _).
  - reflexivity.
  - exact E.
  - by_computation.
  - exists t2c, dest'. split; [reflexivity|]. split; [exact Hrun|]. split; [exact Hcap|].
    split; apply (Hrows 3 3); by vm_compute.
Defined.

(** ** The executor object *)

(** C2. [DExecute] on an executor with its one child: it returns false
    exactly when the child's [Execute()] returned false or the tile pulled
    from the child has no selected row, and then neither the heap nor the
    held output changes (no tile is produced); in every other case it
    returns true and holds an output tile. *)
Theorem DExecute_contract ic it h ex child :
  children_ ex = [child] →
  (∀ t, pulled child = Some t → GetTupleCount t = length (iterate t)) →
  (∀ t, pulled child = Some t → is_Some (Physify ic it (node_ ex) h t)) →
  ∃ b h' ex',
    DExecute ic it h ex = Some (b, h', ex')
    ∧ (b = false ↔ stream_exhausted child ∨ empty_pull child)
    ∧ (b = false → h' = h ∧ output_ ex' = output_ ex)
    ∧ (b = true → is_Some (output_ ex')).
Proof.
  intros Hchildren Hcount Hphysify.
  unfold DExecute, stream_exhausted, empty_pull, pulled in *.
  rewrite Hchildren. simpl.
  unfold child_Execute in *.
  destruct (child_pending child) as [|[t|] rest]; simpl in *.
  - exists false, h, (set_child0 child ex). split_and!; try done.
    split; [by left|done].
  - specialize (Hcount t eq_refl). specialize (Hphysify t eq_refl).
    destruct (GetTupleCount t) as [|n] eqn:Hn; simpl.
    + eexists false, h, _. split_and!; try done.
      split; [|done]. intros _. right. exists t. split; [done|].
      by apply nil_length_inv.
    + assert (iterate t ≠ []) as Hrows by (intros Hnil; by rewrite Hnil in Hcount).
      assert (true = false ↔ true = false ∨ ∃ t0, Some t = Some t0 ∧ iterate t0 = [])
        as Hiff.
      { split; [done|]. intros [?|(t0 & [= <-] & ?)]; done. }
      destruct (match node_ ex with
                | Some node => node_physify_flag node
                | None => true
                end).
      * destruct Hphysify as [[h' out] Hrun]. rewrite Hrun. simpl.
        eexists true, h', _. by split_and!.
      * eexists true, h, _. by split_and!.
  - eexists false, h, _. split_and!; try done.
    split; [by left|done].
Qed.

(** The sample view is pulled and materialized. *)
Lemma DExecute_contract_witness :
  ∃ h' ex',
    DExecute map_to_list map_to_list sample_heap sample_executor = Some (true, h', ex')
    ∧ is_Some (output_ ex').
Proof.
  destruct (DExecute_contract map_to_list map_to_list sample_heap sample_executor
              (mkChild true [Some sample_source; None] None))
    as (b & h' & ex' & Hrun & Hfalse & _ & Htrue).
  - reflexivity.
  - intros t [= <-]. reflexivity.
  - intros t [= <-]. by_computation.
  - destruct b.
    + exists h', ex'. split; [exact Hrun|]. by apply Htrue.
    + exfalso. destruct (proj1 Hfalse eq_refl) as [Hex|(t & [= <-] & Hnil)]; discriminate.
Defined.

(** A view without rows is swallowed: [DExecute] returns false, allocates
    nothing and keeps the output it held. *)
Example DExecute_empty_pull :
  ∃ ex', DExecute map_to_list map_to_list sample_heap empty_executor
           = Some (false, sample_heap, ex')
    ∧ output_ ex' = output_ empty_executor.
Proof. eexists. split; reflexivity. Qed.

(** C8 (as amended). [DInit] never returns false: with exactly one child it
    returns true; with any other number of children the assertion aborts the
    process, or, when assertions are compiled out, it returns true all the
    same.  [Init] therefore returns false only when a child's [Init] does. *)
Theorem DInit_contract ndebug ex :
  (length (children_ ex) = 1 → DInit ndebug ex = Returns true)
  ∧ DInit ndebug ex ≠ Returns false
  ∧ (length (children_ ex) ≠ 1 →
       DInit false ex = AssertionFailure ∧ DInit true ex = Returns true)
  ∧ (Init ndebug ex = Returns false ↔ forallb child_init (children_ ex) = false).
Proof.
  unfold Init, DInit. split_and!.
  - intros ->. simpl. by rewrite andb_false_r.
  - by destruct (negb ndebug && negb (length (children_ ex) =? 1)).
  - intros Hne. apply Nat.eqb_neq in Hne. by rewrite Hne.
  - destruct (forallb child_init (children_ ex)); [|done].
    by destruct (negb ndebug && negb (length (children_ ex) =? 1)).
Qed.

Lemma DInit_contract_witness :
  DInit false sample_executor = Returns true
  ∧ DInit false childless_executor = AssertionFailure
  ∧ DInit true childless_executor = Returns true.
Proof.
  split.
  - destruct (DInit_contract false sample_executor) as (H & _). by apply H.
  - destruct (DInit_contract false childless_executor) as (_ & _ & H & _). by apply H.
Defined.

(** An executor without children has not exactly one child, and its [Init]
    does not return false, with or without assertions. *)
Lemma Init_childless_not_false :
  length (children_ childless_executor) ≠ 1
  ∧ Init false childless_executor = AssertionFailure
  ∧ Init true childless_executor = Returns true
  ∧ Init false childless_executor ≠ Returns false
  ∧ Init true childless_executor ≠ Returns false.
Proof. by split_and!. Qed.

End ExecutorFacts.

Module StorageFacts.
Import Executor Storage.

(** ** Tile groups by position *)

(** C10. [GetTileGroup(tile_group_id)] under its precondition
    [tile_group_id < NumTileGroups()] returns the group at that position of
    the group list, and appending a group does not change what it returns;
    an id out of range is not turned into an error value: the assertion
    aborts, or without assertions the read is out of bounds, and in no case
    is a group returned. *)
Theorem GetTileGroup_contract ndebug tile_group_id t :
  (tile_group_id < NumTileGroups t →
     ∃ tg, tile_groups t !! tile_group_id = Some tg
       ∧ GetTileGroup ndebug tile_group_id t = Returns tg
       ∧ ∀ tg', GetTileGroup ndebug tile_group_id (AddTileGroup tg' t) = Returns tg)
  ∧ (NumTileGroups t ≤ tile_group_id →
       GetTileGroup false tile_group_id t = AssertionFailure
       ∧ GetTileGroup true tile_group_id t = UndefinedBehaviour
       ∧ ∀ tg, GetTileGroup ndebug tile_group_id t ≠ Returns tg).
Proof.
  unfold NumTileGroups, GetTileGroup. split.
  - intros Hlt. destruct (lookup_lt_is_Some_2 _ _ Hlt) as [tg Htg].
    exists tg. split; [done|].
    apply Nat.ltb_lt in Hlt as Hltb. rewrite Hltb, Htg, andb_false_r.
    split; [done|]. intros tg'. simpl.
    rewrite length_app, lookup_app_l, Htg by done.
    assert ((tile_group_id <? length (tile_groups t) + length [tg']) = true) as ->
      by (apply Nat.ltb_lt; lia).
    by rewrite andb_false_r.
  - intros Hge. apply Nat.ltb_ge in Hge as Hgeb. rewrite Hgeb.
    rewrite (lookup_ge_None_2 _ _ Hge). simpl. split_and!; try done.
    by destruct ndebug.
Qed.

Lemma GetTileGroup_contract_witness :
  GetTileGroup false 0 (AddDefaultTileGroup TEST_TABLE).2 = Returns (mkTileGroup 1000 [])
  ∧ GetTileGroup false 1 (AddDefaultTileGroup TEST_TABLE).2 = AssertionFailure.
Proof.
  split.
  - destruct (GetTileGroup_contract false 0 (AddDefaultTileGroup TEST_TABLE).2)
      as [Hin _].
    destruct Hin as (tg & Htg & Hget & _); [vm_compute; lia|].
    injection Htg as <-. exact Hget.
  - destruct (GetTileGroup_contract false 1 (AddDefaultTileGroup TEST_TABLE).2)
      as [_ Hout].
    destruct Hout as (Hassert & _); [vm_compute; lia|]. exact Hassert.
Defined.

(** ** The null check *)

Lemma CheckNulls_false (sch : Schema) : ∀ tuple : Tuple,
  forallb (λ cv, allow_null cv.1 || negb (IsNull cv.2)) (zip sch tuple) = false ↔
  ∃ col ci v, sch !! col = Some ci ∧ tuple !! col = Some v
    ∧ allow_null ci = false ∧ IsNull v = true.
Proof.
  induction sch as [|ci sch IH]; intros [|v tuple]; simpl.
  - split; [done|]. intros (col & ? & ? & H & _). by rewrite ?lookup_nil in H.
  - split; [done|]. intros (col & ? & ? & H & _). by rewrite ?lookup_nil in H.
  - split; [done|]. intros (col & ? & ? & _ & H & _). by rewrite ?lookup_nil in H.
  - rewrite andb_false_iff, IH, orb_false_iff, negb_false_iff. split.
    + intros [[Hnull Hv]|(col & ci' & v' & Hc & Hv & Hrest)].
      * by exists 0, ci, v.
      * by exists (S col), ci', v'.
    + intros ([|col] & ci' & v' & Hc & Hv & Hnull & Hisnull); simpl in *.
      * left. by simplify_eq.
      * right. by exists col, ci', v'.
Qed.

(** ** Capacity *)

Lemma has_free_slot_snoc t full last :
  tile_groups t = full ++ [last] →
  has_free_slot t = (GetNextTupleSlot last <? tg_capacity last).
Proof. unfold has_free_slot. intros ->. by rewrite last_snoc. Qed.

Lemma lookup_last_snoc {A} (l : list A) x : (l ++ [x]) !! (length (l ++ [x]) - 1) = Some x.
Proof.
  rewrite length_app. simpl.
  replace (length l + 1 - 1) with (length l + 0) by lia.
  by rewrite lookup_app_r, Nat.add_comm, Nat.add_sub by lia.
Qed.

Lemma insert_last_snoc {A} (l : list A) x y :
  <[length (l ++ [x]) - 1 := y]> (l ++ [x]) = l ++ [y].
Proof.
  rewrite length_app. simpl.
  replace (length l + 1 - 1) with (length l + 0) by lia.
  by rewrite insert_app_r.
Qed.

(** One insert into a packed table succeeds and keeps it packed. *)
Lemma InsertTuple_packed C n txn tuple t :
  0 < C → packed C n t → CheckNulls t tuple = true →
  ∃ location t', InsertTuple txn tuple t = (Inserted location, t')
    ∧ packed C (S n) t' ∧ schema t' = schema t.
Proof.
  intros HC (Hcap & Hidx & Hgroups) Hnulls.
  unfold InsertTuple. rewrite Hnulls. simpl.
  destruct Hgroups as [[-> Hnil]|(full & last & Hg & Hfull & Hlastcap & Hlast & Hn)].
  - unfold has_free_slot. rewrite Hnil. simpl.
    unfold NumTileGroups, TileGroup_InsertTuple, GetNextTupleSlot,
      TryInsertInIndexes. simpl. rewrite Hnil, Hidx, Hcap. simpl.
    apply Nat.ltb_lt in HC as HCb. rewrite HCb. simpl.
    eexists _, _. split; [done|]. split; [|done].
    unfold packed. simpl. split_and!; try done. right.
    exists [], (mkTileGroup C [mkSlot tuple txn None]). simpl.
    split_and!; try done; unfold GetNextTupleSlot; simpl; lia.
  - rewrite (has_free_slot_snoc t full last Hg).
    destruct (decide (GetNextTupleSlot last < tg_capacity last)) as [Hroom|Hfullg].
    + apply Nat.ltb_lt in Hroom as Hroomb. rewrite Hroomb.
      unfold NumTileGroups. rewrite Hg, lookup_last_snoc.
      unfold TileGroup_InsertTuple. rewrite Hroomb.
      unfold TryInsertInIndexes. simpl. rewrite Hidx. simpl.
      eexists _, _. split; [done|]. split; [|done].
      rewrite insert_last_snoc. unfold packed. simpl.
      split_and!; try done. right.
      eexists full, _. split; [done|].
      unfold GetNextTupleSlot in *. simpl. rewrite length_app. simpl.
      split_and!; try done; lia.
    + assert ((GetNextTupleSlot last <? tg_capacity last) = false) as Hfullb
        by (apply Nat.ltb_ge; lia).
      rewrite Hfullb. simpl.
      unfold NumTileGroups. simpl. rewrite Hg, lookup_last_snoc.
      unfold TileGroup_InsertTuple, GetNextTupleSlot. simpl. rewrite Hcap.
      apply Nat.ltb_lt in HC as HCb. rewrite HCb.
      unfold TryInsertInIndexes. simpl. rewrite Hidx. simpl.
      eexists _, _. split; [done|]. split; [|done].
      rewrite insert_last_snoc. unfold packed. simpl.
      split_and!; try done. right.
      eexists (full ++ [last]), _. split; [done|].
      unfold GetNextTupleSlot in *. simpl. rewrite length_app. simpl.
      split_and!; try done; try lia.
      apply Forall_app. split; [done|]. apply Forall_singleton. lia.
Qed.

Lemma CheckNulls_schema t t' tuple :
  schema t' = schema t → CheckNulls t' tuple = CheckNulls t tuple.
Proof. unfold CheckNulls. by intros ->. Qed.

Lemma forallb_CheckNulls_schema t t' tuples :
  schema t' = schema t → forallb (CheckNulls t') tuples = forallb (CheckNulls t) tuples.
Proof.
  intros Hs. induction tuples as [|tuple tuples IH]; simpl; [done|].
  by rewrite IH, (CheckNulls_schema t t').
Qed.

Lemma InsertTuples_packed C txn tuples : ∀ n t,
  0 < C → packed C n t → forallb (CheckNulls t) tuples = true →
  ∃ rs t', InsertTuples txn tuples t = (rs, t')
    ∧ packed C (n + length tuples) t'
    ∧ Forall (λ r, is_error r = false) rs.
Proof.
  induction tuples as [|tuple tuples IH]; intros n t HC Hpacked Hnulls; simpl in *.
  - exists [], t. by rewrite Nat.add_0_r.
  - apply andb_true_iff in Hnulls as [Hnull Hnulls].
    destruct (InsertTuple_packed C n txn tuple t HC Hpacked Hnull)
      as (location & t1 & Hrun & Hpacked1 & Hschema).
    rewrite Hrun.
    destruct (IH (S n) t1 HC Hpacked1) as (rs & t' & Hruns & Hpacked' & Hrs).
    { by rewrite (forallb_CheckNulls_schema t t1). }
    rewrite Hruns. exists (Inserted location :: rs), t'.
    split; [done|]. split; [by replace (n + S (length tuples)) with (S n + length tuples) by lia|].
    by constructor.
Qed.

(** [InsertTuple] never reports a full table when groups have room for at
    least one tuple. *)
Lemma InsertTuple_never_full txn tuple t :
  0 < tuples_per_tilegroup t → (InsertTuple txn tuple t).1 ≠ TableFull.
Proof.
  intros HC. unfold InsertTuple.
  destruct (CheckNulls t tuple); simpl; [|done].
  destruct (has_free_slot t) eqn:Hfree.
  - unfold has_free_slot in Hfree.
    destruct (tile_groups t) as [|g gs] eqn:Hg using rev_ind; [done|].
    rewrite last_snoc in Hfree. unfold NumTileGroups. rewrite Hg, lookup_last_snoc.
    unfold TileGroup_InsertTuple. rewrite Hfree.
    by destruct (TryInsertInIndexes _ _ _) as [[|] ?].
  - unfold NumTileGroups. simpl. rewrite lookup_last_snoc.
    unfold TileGroup_InsertTuple, GetNextTupleSlot. simpl.
    apply Nat.ltb_lt in HC as ->.
    by destruct (TryInsertInIndexes _ _ _) as [[|] ?].
Qed.

(** C5. A table as the factory creates it (tile-group capacity 1000, no
    index) into which 2500 tuples that pass the null check are inserted one
    after the other ends up with three tile groups holding 1000, 1000 and 500
    tuples, and every insert returned an item pointer; more generally
    [InsertTuple] never reports a full table as long as a group can hold at
    least one tuple, it appends a new group instead. *)
Theorem InsertTuples_2500 sch name txn tuples :
  length tuples = 2500 →
  forallb (CheckNulls (GetTable sch name)) tuples = true →
  (∃ rs t', InsertTuples txn tuples (GetTable sch name) = (rs, t')
     ∧ NumTileGroups t' = 3
     ∧ group_sizes t' = [1000; 1000; 500]
     ∧ Forall (λ r, is_error r = false) rs)
  ∧ (∀ tuple t, 0 < tuples_per_tilegroup t → (InsertTuple txn tuple t).1 ≠ TableFull).
Proof.
  intros Hlen Hnulls. split; [|intros tuple t; apply InsertTuple_never_full].
  destruct (InsertTuples_packed 1000 txn tuples 0 (GetTable sch name))
    as (rs & t' & Hrun & (_ & _ & Hgroups) & Hrs); [lia| |done|].
  { split_and!; try done. by left. }
  exists rs, t'. split; [done|]. rewrite Hlen in Hgroups.
  destruct Hgroups as [[? _]|(full & last & Hg & Hfull & _ & Hlast & Hn)]; [done|].
  unfold NumTileGroups, group_sizes. rewrite Hg, length_app, map_app. simpl.
  assert (length full = 2 ∧ GetNextTupleSlot last = 500) as [Hk Hl] by lia.
  destruct full as [|g1 [|g2 [|g3 full]]]; try done.
  apply Forall_cons in Hfull as [[_ H1] Hfull].
  apply Forall_cons in Hfull as [[_ H2] _].
  simpl. by rewrite H1, H2, Hl.
Qed.

Lemma InsertTuples_2500_witness :
  ∃ rs t', InsertTuples 1 (map GetTuple (seq 0 2500))
             (GetTable (omap GetColumnInfo [0; 1; 2; 3]) "temp") = (rs, t')
    ∧ NumTileGroups t' = 3
    ∧ group_sizes t' = [1000; 1000; 500].
Proof.
  destruct (InsertTuples_2500 (omap GetColumnInfo [0; 1; 2; 3]) "temp" 1
              (map GetTuple (seq 0 2500)))
    as [(rs & t' & Hrun & Hn & Hsizes & _) _].
  - rewrite length_map. apply length_seq.
  - vm_compute. reflexivity.
  - exists rs, t'. split; [exact Hrun|]. split; [exact Hn|exact Hsizes].
Defined.

(** ** Index maintenance *)

Lemma filter_all {A} (P : A → Prop) `{∀ x, Decision (P x)} (l : list A) :
  Forall P l → filter P l = l.
Proof.
  induction 1 as [|x l Hx Hl IH]; [done|].
  by rewrite filter_cons_True, IH.
Qed.

(** Undoing the insert of an entry for a location the index did not know
    restores the index. *)
Lemma DeleteEntry_InsertEntry tuple location idx :
  Forall (λ e, e.2 ≠ location) (entries idx) →
  DeleteEntry (key_of (InsertEntry (key_of idx tuple) location idx) tuple) location
    (InsertEntry (key_of idx tuple) location idx) = idx.
Proof.
  intros Hfresh. destruct idx as [u attrs es]. unfold DeleteEntry, InsertEntry, key_of.
  simpl in *. f_equal.
  rewrite filter_app, filter_cons_False, filter_nil, app_nil_r by (by intros []).
  apply filter_all. eapply Forall_impl; [exact Hfresh|].
  intros [k l] Hne. simpl in *. congruence.
Qed.

Lemma TryInsertEntry_Some key location idx idx' :
  TryInsertEntry key location idx = Some idx' → idx' = InsertEntry key location idx.
Proof. unfold TryInsertEntry. case_match; congruence. Qed.

(** A failed run of the loop leaves the indexes as they were. *)
Lemma TryInsertInIndexes_loop_rollback tuple location todo : ∀ origs idxs',
  no_entry_for location origs → no_entry_for location todo →
  TryInsertInIndexes_loop tuple location
    (map (λ idx, InsertEntry (key_of idx tuple) location idx) origs) todo = (false, idxs') →
  idxs' = origs ++ todo.
Proof.
  induction todo as [|idx rest IH]; intros origs idxs' Hfresh Htodo Hrun; simpl in Hrun.
  - discriminate Hrun.
  - apply Forall_cons in Htodo as [Hidx Hrest].
    destruct (TryInsertEntry (key_of idx tuple) location idx) as [idx'|] eqn:Htry.
    + apply TryInsertEntry_Some in Htry as ->.
      assert (idxs' = (origs ++ [idx]) ++ rest) as ->; [|by rewrite <- app_assoc].
      apply IH; [|done|by rewrite map_app].
      apply Forall_app. split; [done|]. by apply Forall_singleton.
    + injection Hrun as <-. f_equal.
      rewrite map_map. rewrite <- (map_id origs) at 2.
      apply map_ext_Forall. eapply Forall_impl; [exact Hfresh|].
      intros prev Hprev. simpl. by apply DeleteEntry_InsertEntry.
Qed.

(** The loop fails when a unique index among those still to go holds the
    key. *)
Lemma TryInsertInIndexes_loop_fails tuple location todo : ∀ done,
  key_collision tuple todo →
  (TryInsertInIndexes_loop tuple location done todo).1 = false.
Proof.
  induction todo as [|idx rest IH]; intros done Hcol; simpl.
  - by apply Exists_nil in Hcol.
  - destruct (TryInsertEntry (key_of idx tuple) location idx) as [idx'|] eqn:Htry; [|done].
    apply Exists_cons in Hcol as [[Hu He]|Hcol]; [|by apply IH].
    unfold TryInsertEntry in Htry. by rewrite Hu, He in Htry.
Qed.

(** ** Slots *)

(** The table [InsertTuple] works on after step 1: its last group is the
    one the insert is delegated to. *)
Lemma current_group t :
  let t1 := if has_free_slot t then t else (AddDefaultTileGroup t).2 in
  indexes t1 = indexes t ∧ schema t1 = schema t
  ∧ tuples_per_tilegroup t1 = tuples_per_tilegroup t
  ∧ ∃ groups tg, tile_groups t1 = groups ++ [tg]
      ∧ ((tile_groups t = groups ++ [tg] ∧ GetNextTupleSlot tg < tg_capacity tg)
         ∨ (tile_groups t = groups ∧ tg = mkTileGroup (tuples_per_tilegroup t) [])).
Proof.
  simpl. destruct (has_free_slot t) eqn:Hfree.
  - split_and!; try done. unfold has_free_slot in Hfree.
    destruct (tile_groups t) as [|g gs _] using rev_ind; [done|].
    rewrite last_snoc in Hfree. exists gs, g. split; [done|].
    left. split; [done|]. by apply Nat.ltb_lt.
  - split_and!; try done. eexists _, _. split; [done|]. by right.
Qed.

Lemma slot_at_snoc_group t t' groups tg new location s :
  tile_groups t = groups ++ [tg] →
  tile_groups t' = groups ++ [mkTileGroup (tg_capacity tg) (tg_slots tg ++ [new])] →
  slot_at t location = Some s → slot_at t' location = Some s.
Proof.
  unfold slot_at. intros -> -> Hs.
  destruct (decide (block location < length groups)) as [Hlt|Hge].
  - by rewrite lookup_app_l in * by done.
  - rewrite lookup_app_r in * by lia.
    destruct (block location - length groups) as [|k]; simpl in *; [|done].
    by apply lookup_app_l_Some.
Qed.

Lemma slot_at_new_group t t' tg location s :
  tile_groups t' = tile_groups t ++ [tg] →
  slot_at t location = Some s → slot_at t' location = Some s.
Proof.
  unfold slot_at. intros -> Hs.
  destruct (tile_groups t !! block location) as [g|] eqn:Hg; [|done].
  by rewrite (lookup_app_l_Some _ _ _ _ Hg).
Qed.

Lemma TryInsertInIndexes_tile_groups tuple location t :
  tile_groups (TryInsertInIndexes tuple location t).2 = tile_groups t.
Proof.
  unfold TryInsertInIndexes.
  by destruct (TryInsertInIndexes_loop tuple location [] (indexes t)).
Qed.

Lemma slot_at_tile_groups t t' location :
  tile_groups t' = tile_groups t → slot_at t' location = slot_at t location.
Proof. unfold slot_at. by intros ->. Qed.

(** What [InsertTuple] does once the null check has passed and the current
    group has room: the slot is appended to the last group and the indexes
    are tried. *)
Lemma InsertTuple_allocates txn tuple t :
  CheckNulls t tuple = true → 0 < tuples_per_tilegroup t →
  ∃ groups tg t2,
    let location := mkItemPointer (length groups) (GetNextTupleSlot tg) in
    (tile_groups t = groups ++ [tg] ∨ (tile_groups t = groups ∧ tg_slots tg = []))
    ∧ tile_groups t2 =
        groups ++ [mkTileGroup (tg_capacity tg) (tg_slots tg ++ [mkSlot tuple txn None])]
    ∧ indexes t2 = indexes t
    ∧ InsertTuple txn tuple t =
        (if (TryInsertInIndexes tuple location t2).1
         then Inserted location else UniqueKeyViolation,
         (TryInsertInIndexes tuple location t2).2).
Proof.
  intros Hnulls HC. unfold InsertTuple. rewrite Hnulls. cbn [negb].
  destruct (current_group t) as (Hidx & _ & _ & groups & tg & Hg1 & Hcase).
  set (t1 := if has_free_slot t then t else (AddDefaultTileGroup t).2) in *.
  unfold NumTileGroups. rewrite Hg1, lookup_last_snoc.
  assert ((GetNextTupleSlot tg <? tg_capacity tg) = true) as Hroom.
  { apply Nat.ltb_lt. destruct Hcase as [[_ ?]|[_ ->]]; [done|].
    unfold GetNextTupleSlot. simpl. lia. }
  unfold TileGroup_InsertTuple. rewrite Hroom. cbv beta iota.
  rewrite insert_last_snoc.
  replace (length (groups ++ [tg]) - 1) with (length groups)
    by (rewrite length_app; simpl; lia).
  exists groups, tg,
    (set_tile_groups
       (groups ++ [mkTileGroup (tg_capacity tg) (tg_slots tg ++ [mkSlot tuple txn None])])
       t1).
  split_and!.
  - destruct Hcase as [[? _]|[? ->]]; [by left|right; by split].
  - done.
  - done.
  - simpl. by destruct (TryInsertInIndexes _ _ _) as [[|] t'].
Qed.

(** [InsertTuple] leaves the slots that exist alone. *)
Lemma InsertTuple_slot_stable txn tuple t location s :
  slot_at t location = Some s → slot_at (InsertTuple txn tuple t).2 location = Some s.
Proof.
  intros Hs. unfold InsertTuple.
  destruct (CheckNulls t tuple); cbn [negb]; [|done].
  destruct (current_group t) as (_ & _ & _ & groups & tg & Hg1 & Hcase).
  set (t1 := if has_free_slot t then t else (AddDefaultTileGroup t).2) in *.
  assert (slot_at t1 location = Some s) as Hs1.
  { destruct Hcase as [[Hg _]|[Hg _]].
    - rewrite (slot_at_tile_groups t t1); [done|congruence].
    - apply (slot_at_new_group t t1 tg); [congruence|done]. }
  unfold NumTileGroups. rewrite Hg1, lookup_last_snoc.
  unfold TileGroup_InsertTuple.
  destruct (GetNextTupleSlot tg <? tg_capacity tg); [|done].
  cbv beta iota. rewrite insert_last_snoc.
  match goal with
  | |- context [TryInsertInIndexes ?tu ?loc ?t2] =>
      pose proof (TryInsertInIndexes_tile_groups tu loc t2) as Htg;
      destruct (TryInsertInIndexes tu loc t2) as [[|] t'] eqn:E
  end; simpl in *.
  - by apply (slot_at_snoc_group t1 t' groups tg (mkSlot tuple txn None)).
  - by apply (slot_at_snoc_group t1 t' groups tg (mkSlot tuple txn None)).
Qed.

Lemma InsertTuples_slot_stable txn tuples : ∀ t location s,
  slot_at t location = Some s → slot_at (InsertTuples txn tuples t).2 location = Some s.
Proof.
  induction tuples as [|tuple tuples IH]; intros t location s Hs; simpl; [done|].
  pose proof (InsertTuple_slot_stable txn tuple t location s Hs) as H1.
  destruct (InsertTuple txn tuple t) as [r t1]. simpl in H1.
  specialize (IH t1 location s H1).
  by destruct (InsertTuples txn tuples t1) as [rs t'].
Qed.

(** The loop fails only when a unique index among those still to go holds
    the key. *)
Lemma TryInsertInIndexes_loop_fails_inv tuple location todo : ∀ prev,
  (TryInsertInIndexes_loop tuple location prev todo).1 = false →
  key_collision tuple todo.
Proof.
  induction todo as [|idx rest IH]; intros prev Hrun; simpl in Hrun; [done|].
  destruct (TryInsertEntry (key_of idx tuple) location idx) as [idx'|] eqn:Htry.
  - apply Exists_cons_tl. by apply (IH (prev ++ [idx'])).
  - apply Exists_cons_hd. unfold TryInsertEntry in Htry.
    destruct (unique_keys idx); [|done].
    by destruct (Exists_key (key_of idx tuple) idx).
Qed.

(** The three ways [InsertTuple] can go: the null check fails; no slot can
    be allocated, which takes groups of capacity 0; or a slot is appended to
    the last group and the indexes are tried. *)
Lemma InsertTuple_cases txn tuple t :
  (CheckNulls t tuple = false ∧ InsertTuple txn tuple t = (NullViolation, t))
  ∨ (CheckNulls t tuple = true ∧ tuples_per_tilegroup t = 0
     ∧ (InsertTuple txn tuple t).1 = TableFull)
  ∨ (CheckNulls t tuple = true
     ∧ ∃ groups tg t2,
         let location := mkItemPointer (length groups) (GetNextTupleSlot tg) in
         (tile_groups t = groups ++ [tg] ∨ (tile_groups t = groups ∧ tg_slots tg = []))
         ∧ tile_groups t2 =
             groups ++ [mkTileGroup (tg_capacity tg) (tg_slots tg ++ [mkSlot tuple txn None])]
         ∧ indexes t2 = indexes t
         ∧ InsertTuple txn tuple t =
             (if (TryInsertInIndexes tuple location t2).1
              then Inserted location else UniqueKeyViolation,
              (TryInsertInIndexes tuple location t2).2)).
Proof.
  destruct (CheckNulls t tuple) eqn:Hnulls.
  2:{ left. split; [done|]. unfold InsertTuple. by rewrite Hnulls. }
  right. unfold InsertTuple. rewrite Hnulls. cbn [negb].
  destruct (current_group t) as (Hidx & _ & _ & groups & tg & Hg1 & Hcase).
  set (t1 := if has_free_slot t then t else (AddDefaultTileGroup t).2) in *.
  unfold NumTileGroups. rewrite Hg1, lookup_last_snoc.
  unfold TileGroup_InsertTuple.
  destruct (GetNextTupleSlot tg <? tg_capacity tg) eqn:Hroom.
  - right. split; [done|]. cbv beta iota. rewrite insert_last_snoc.
    replace (length (groups ++ [tg]) - 1) with (length groups)
      by (rewrite length_app; simpl; lia).
    exists groups, tg,
      (set_tile_groups
         (groups ++ [mkTileGroup (tg_capacity tg) (tg_slots tg ++ [mkSlot tuple txn None])])
         t1).
    split_and!.
    + destruct Hcase as [[? _]|[? ->]]; [by left|right; by split].
    + done.
    + done.
    + simpl. by destruct (TryInsertInIndexes _ _ _) as [[|] t'].
  - left. split_and!; [done| |done].
    apply Nat.ltb_ge in Hroom. destruct Hcase as [[_ ?]|[_ ->]]; [lia|].
    unfold GetNextTupleSlot in Hroom. simpl in Hroom. lia.
Qed.

(** The item pointer of a successful insert names a slot that did not exist
    before. *)
Lemma InsertTuple_fresh txn tuple t location :
  (InsertTuple txn tuple t).1 = Inserted location → slot_at t location = None.
Proof.
  intros Hres.
  destruct (InsertTuple_cases txn tuple t)
    as [[_ Hrun]|[(_ & _ & Hrun)|(_ & groups & tg & t2 & Hcase & _ & _ & Hrun)]].
  - by rewrite Hrun in Hres.
  - by rewrite Hrun in Hres.
  - simpl in Hrun. rewrite Hrun in Hres. simpl in Hres.
    destruct (TryInsertInIndexes _ _ t2).1; [|done].
    injection Hres as <-. unfold slot_at. simpl. destruct Hcase as [->|[-> _]].
    + rewrite lookup_app_r, Nat.sub_diag by lia. simpl.
      by apply lookup_ge_None_2.
    + by rewrite lookup_ge_None_2.
Qed.

(** ** Commits *)

(** A commit changes the slot it names and no other. *)
Lemma slot_at_CommitTuple_ne location commit_id t other :
  location ≠ other →
  slot_at (CommitTuple location commit_id t) other = slot_at t other.
Proof.
  intros Hne. unfold slot_at, CommitTuple. simpl.
  destruct (decide (block location = block other)) as [Hb|Hb].
  - rewrite Hb, list_lookup_alter_eq.
    destruct (tile_groups t !! block other) as [tg|]; simpl; [|done].
    apply list_lookup_alter_ne. intros Ho. apply Hne.
    destruct location, other. simpl in *. congruence.
  - by rewrite list_lookup_alter_ne.
Qed.

(** The commit of an allocated slot makes it visible. *)
Lemma visible_CommitTuple location commit_id t :
  is_Some (slot_at t location) → visible (CommitTuple location commit_id t) location = true.
Proof.
  intros [s Hs]. unfold visible, slot_at, CommitTuple in *. simpl.
  rewrite list_lookup_alter_eq.
  destruct (tile_groups t !! block location) as [tg|]; simpl in *; [|done].
  by rewrite list_lookup_alter_eq, Hs.
Qed.

(** A slot that the caller was not handed stays as it is, and out of the
    caller's hands, whatever the caller asks for. *)
Lemma serve_keeps_slot rq c c' location s :
  slot_at (cl_table c) location = Some s → location ∉ cl_handed c →
  serve rq c = Some c' →
  slot_at (cl_table c') location = Some s ∧ location ∉ cl_handed c'.
Proof.
  intros Hs Hout Hserve. destruct rq as [txn tuple|other commit_id]; simpl in Hserve.
  - pose proof (InsertTuple_slot_stable txn tuple (cl_table c) location s Hs) as Hstable.
    pose proof (InsertTuple_fresh txn tuple (cl_table c)) as Hfresh.
    destruct (InsertTuple txn tuple (cl_table c)) as [r t']. simpl in *.
    injection Hserve as <-. simpl. split; [done|].
    destruct r as [new| | |]; try done.
    apply not_elem_of_cons. split; [|done].
    intros ->. specialize (Hfresh new eq_refl). congruence.
  - case_bool_decide as Hin; [|done]. injection Hserve as <-. simpl.
    split; [|done]. rewrite slot_at_CommitTuple_ne; [done|].
    intros ->. by apply Hout.
Qed.

Lemma serve_all_keeps_slot rqs : ∀ c c' location s,
  slot_at (cl_table c) location = Some s → location ∉ cl_handed c →
  serve_all rqs c = Some c' →
  slot_at (cl_table c') location = Some s ∧ location ∉ cl_handed c'.
Proof.
  induction rqs as [|rq rqs IH]; intros c c' location s Hs Hout Hrun; simpl in Hrun.
  - by injection Hrun as <-.
  - destruct (serve rq c) as [c1|] eqn:Hserve; [|done]. simpl in Hrun.
    destruct (serve_keeps_slot rq c c1 location s Hs Hout Hserve) as [Hs1 Hout1].
    by apply (IH c1).
Qed.

(** A successful insert leaves the tuple in the slot it names, without a
    commit id. *)
Lemma InsertTuple_Inserted_slot txn tuple t location t' :
  InsertTuple txn tuple t = (Inserted location, t') →
  slot_at t' location = Some (mkSlot tuple txn None).
Proof.
  intros Hres.
  destruct (InsertTuple_cases txn tuple t)
    as [[_ Hrun]|[(_ & _ & Hrun)|(_ & groups & tg & t2 & _ & Hg2 & _ & Hrun)]].
  - congruence.
  - by rewrite Hres in Hrun.
  - simpl in Hrun. rewrite Hrun in Hres.
    destruct (TryInsertInIndexes _ _ t2).1; [|done].
    injection Hres as <- <-.
    rewrite (slot_at_tile_groups t2) by apply TryInsertInIndexes_tile_groups.
    unfold slot_at. simpl. rewrite Hg2.
    rewrite lookup_app_r, Nat.sub_diag by lia. simpl.
    unfold GetNextTupleSlot. by rewrite lookup_app_r, Nat.sub_diag by lia.
Qed.

(** The other side: the slot of a successful insert is handed to the caller,
    and the commit of it is a request that makes the slot visible. *)
Lemma serve_insert_then_commit txn tuple t location t' known commit_id :
  InsertTuple txn tuple t = (Inserted location, t') →
  ∃ c', serve_all [DoInsert txn tuple; DoCommit location commit_id] (mkCaller t known)
          = Some c'
        ∧ location ∈ cl_handed c'
        ∧ visible (cl_table c') location = true.
Proof.
  intros Hres. simpl. rewrite Hres. simpl.
  rewrite bool_decide_eq_true_2 by apply list_elem_of_here. simpl.
  eexists. split; [done|]. simpl. split; [apply list_elem_of_here|].
  apply visible_CommitTuple. rewrite (InsertTuple_Inserted_slot _ _ _ _ _ Hres). by eexists.
Qed.

(** ** Constraint violations *)

(** C7 (as amended). [InsertTuple] reports a null violation if and only if
    some non-nullable column of the tuple holds a null value; the check comes
    before any slot is allocated, so the table is left as it was, and the
    outcome is an error result.  It reports a unique-key violation only for a
    tuple that passes the null check and whose key some unique index already
    holds.  So a rejection as a constraint violation means a null in a
    non-nullable column or a unique-index collision, and, on a table whose
    groups have room for a tuple, each of the two is rejected as a constraint
    violation. *)
Theorem InsertTuple_null_check txn tuple t :
  ((InsertTuple txn tuple t).1 = NullViolation ↔
     ∃ col ci v, schema t !! col = Some ci ∧ tuple !! col = Some v
       ∧ allow_null ci = false ∧ IsNull v = true)
  ∧ ((InsertTuple txn tuple t).1 = NullViolation →
       (InsertTuple txn tuple t).2 = t ∧ is_error (InsertTuple txn tuple t).1 = true)
  ∧ ((InsertTuple txn tuple t).1 = UniqueKeyViolation →
       CheckNulls t tuple = true ∧ key_collision tuple (indexes t))
  ∧ (is_constraint_violation (InsertTuple txn tuple t).1 = true →
       (∃ col ci v, schema t !! col = Some ci ∧ tuple !! col = Some v
          ∧ allow_null ci = false ∧ IsNull v = true)
       ∨ key_collision tuple (indexes t))
  ∧ (0 < tuples_per_tilegroup t →
       (∃ col ci v, schema t !! col = Some ci ∧ tuple !! col = Some v
          ∧ allow_null ci = false ∧ IsNull v = true)
       ∨ key_collision tuple (indexes t) →
       is_constraint_violation (InsertTuple txn tuple t).1 = true).
Proof.
  assert ((InsertTuple txn tuple t).1 = NullViolation ↔ CheckNulls t tuple = false)
    as Hnull.
  { destruct (InsertTuple_cases txn tuple t)
      as [[Hn Hrun]|[(Hn & _ & Hrun)|(Hn & groups & tg & t2 & _ & _ & _ & Hrun)]];
      simpl in Hrun; rewrite Hrun, Hn; simpl; [done|done|].
    by destruct (TryInsertInIndexes _ _ t2).1. }
  assert ((InsertTuple txn tuple t).1 = UniqueKeyViolation →
          CheckNulls t tuple = true ∧ key_collision tuple (indexes t)) as Hunique.
  { destruct (InsertTuple_cases txn tuple t)
      as [[Hn Hrun]|[(Hn & _ & Hrun)|(Hn & groups & tg & t2 & _ & _ & Hidx & Hrun)]];
      simpl in Hrun; rewrite Hrun; simpl; [done|done|].
    destruct (TryInsertInIndexes _ _ t2).1 eqn:Hok; [done|].
    intros _. split; [done|]. unfold TryInsertInIndexes in Hok. rewrite Hidx in Hok.
    apply (TryInsertInIndexes_loop_fails_inv tuple
             (mkItemPointer (length groups) (GetNextTupleSlot tg)) (indexes t) []).
    by destruct (TryInsertInIndexes_loop tuple _ [] (indexes t)). }
  pose proof (CheckNulls_false (schema t) tuple) as Hcols. fold (CheckNulls t tuple) in Hcols.
  split_and!.
  - by rewrite Hnull.
  - intros Hres. split; [|by rewrite Hres].
    apply Hnull in Hres. unfold InsertTuple. by rewrite Hres.
  - exact Hunique.
  - intros Hcv. destruct (InsertTuple txn tuple t).1 eqn:Hres; try done.
    + left. apply Hcols. by apply Hnull.
    + right. by apply Hunique.
  - intros HC [Hcol|Hcol].
    + apply Hcols, Hnull in Hcol. by rewrite Hcol.
    + destruct (CheckNulls t tuple) eqn:Hn.
      2:{ assert ((InsertTuple txn tuple t).1 = NullViolation) as -> by (by apply Hnull).
          done. }
      destruct (InsertTuple_allocates txn tuple t Hn HC)
        as (groups & tg & t2 & _ & _ & Hidx & Hrun).
      simpl in Hrun. rewrite Hrun. simpl.
      unfold TryInsertInIndexes. rewrite Hidx.
      pose proof (TryInsertInIndexes_loop_fails tuple
                    (mkItemPointer (length groups) (GetNextTupleSlot tg))
                    (indexes t) [] Hcol) as Hfail.
      destruct (TryInsertInIndexes_loop tuple _ [] (indexes t)) as [ok idxs'].
      simpl in *. by subst ok.
Qed.

(** The two rejections of [MutateTests.StressTests]: the null tuple, and the
    second insert of the same tuple. *)
Lemma InsertTuple_null_check_witness :
  ((InsertTuple 1 GetNullTuple TEST_TABLE).1 = NullViolation
   ∧ (InsertTuple 1 GetNullTuple TEST_TABLE).2 = TEST_TABLE)
  ∧ (0 < tuples_per_tilegroup (InsertTuple 1 (GetTuple 1) TEST_TABLE).2
     ∧ key_collision (GetTuple 1) (indexes (InsertTuple 1 (GetTuple 1) TEST_TABLE).2)
     ∧ is_constraint_violation
         (InsertTuple 1 (GetTuple 1) (InsertTuple 1 (GetTuple 1) TEST_TABLE).2).1 = true).
Proof.
  split.
  - destruct (InsertTuple_null_check 1 GetNullTuple TEST_TABLE) as (Hiff & Hsame & _).
    assert ((InsertTuple 1 GetNullTuple TEST_TABLE).1 = NullViolation) as Hres.
    { apply Hiff.
      exists 0, (mkColumnInfo VALUE_TYPE_INTEGER 4 "COL_A" false true), NullValue.
      by split_and!. }
    split; [exact Hres|]. by apply Hsame.
  - destruct (InsertTuple_null_check 1 (GetTuple 1)
                (InsertTuple 1 (GetTuple 1) TEST_TABLE).2) as (_ & _ & _ & _ & Hcv).
    assert (0 < tuples_per_tilegroup (InsertTuple 1 (GetTuple 1) TEST_TABLE).2) as HC
      by (vm_compute; lia).
    assert (key_collision (GetTuple 1)
              (indexes (InsertTuple 1 (GetTuple 1) TEST_TABLE).2)) as Hcol
      by (unfold key_collision; by_computation).
    split; [exact HC|]. split; [exact Hcol|]. apply Hcv; [exact HC|]. right. exact Hcol.
Defined.

(** A tuple without any null that collides on the unique index is rejected
    as a constraint violation: the second insert of the same tuple, as in
    [MutateTests.StressTests]. *)
Lemma InsertTuple_collision_without_null :
  CheckNulls (InsertTuple 1 (GetTuple 1) TEST_TABLE).2 (GetTuple 1) = true
  ∧ Forall (λ v, IsNull v = false) (GetTuple 1)
  ∧ (InsertTuple 1 (GetTuple 1) (InsertTuple 1 (GetTuple 1) TEST_TABLE).2).1
      = UniqueKeyViolation
  ∧ is_constraint_violation
      (InsertTuple 1 (GetTuple 1) (InsertTuple 1 (GetTuple 1) TEST_TABLE).2).1 = true.
Proof.
  split_and!; try by vm_compute.
  repeat constructor.
Qed.

(** ** Rollback *)

(** C6. Rollback of a failed unique-index insert: when the tuple passes the
    null check and a unique index already holds its key, [InsertTuple]
    reports a unique-key violation (not "table full"); afterwards the indexes
    are exactly what they were, no index has an entry for the slot that was
    allocated for the tuple, and that slot, which did not exist before, holds
    the tuple without a commit id: it is not visible, and no later insert
    makes it visible.  It never becomes visible: a caller that holds item
    pointers of slots allocated before, makes this insert, and goes on with
    any inserts and with commits of the item pointers it holds, is never
    handed the slot, and after all of it the slot still holds the tuple
    without a commit id. *)
Theorem InsertTuple_unique_violation_rollback txn tuple t :
  entries_allocated t →
  CheckNulls t tuple = true →
  0 < tuples_per_tilegroup t →
  key_collision tuple (indexes t) →
  ∃ t' location,
    InsertTuple txn tuple t = (UniqueKeyViolation, t')
    ∧ (InsertTuple txn tuple t).1 ≠ TableFull
    ∧ indexes t' = indexes t
    ∧ no_entry_for location (indexes t')
    ∧ slot_at t location = None
    ∧ slot_at t' location = Some (mkSlot tuple txn None)
    ∧ visible t' location = false
    ∧ (∀ txn' tuples, visible (InsertTuples txn' tuples t').2 location = false)
    ∧ (∀ known rqs c',
         Forall (λ l, is_Some (slot_at t l)) known →
         serve_all (DoInsert txn tuple :: rqs) (mkCaller t known) = Some c' →
         (location ∉ cl_handed c')
         ∧ slot_at (cl_table c') location = Some (mkSlot tuple txn None)
         ∧ visible (cl_table c') location = false).
Proof.
  intros Halloc Hnulls HC Hcol.
  destruct (InsertTuple_allocates txn tuple t Hnulls HC)
    as (groups & tg & t2 & Hcase & Hg2 & Hidx2 & Hrun).
  simpl in Hrun.
  set (location := mkItemPointer (length groups) (GetNextTupleSlot tg)) in *.
  assert (slot_at t location = None) as Hnew.
  { unfold slot_at, location. simpl. destruct Hcase as [->|[-> _]].
    - rewrite lookup_app_r, Nat.sub_diag by lia. simpl.
      by apply lookup_ge_None_2.
    - by rewrite lookup_ge_None_2. }
  assert (no_entry_for location (indexes t)) as Hfresh.
  { eapply Forall_impl; [exact Halloc|]. intros idx Hidx. simpl in Hidx.
    eapply Forall_impl; [exact Hidx|]. intros e [s Hs] Heq. rewrite Heq in Hs. congruence. }
  unfold TryInsertInIndexes in Hrun. rewrite Hidx2 in Hrun.
  pose proof (TryInsertInIndexes_loop_fails tuple location (indexes t) [] Hcol) as Hfail.
  destruct (TryInsertInIndexes_loop tuple location [] (indexes t)) as [ok idxs'] eqn:Hloop.
  simpl in Hfail. subst ok.
  pose proof (TryInsertInIndexes_loop_rollback tuple location (indexes t) [] idxs'
                (Forall_nil_2 _) Hfresh Hloop) as Hback.
  simpl in Hback, Hrun. subst idxs'.
  assert (slot_at (set_indexes (indexes t) t2) location = Some (mkSlot tuple txn None))
    as Hslot.
  { unfold slot_at, location. simpl. rewrite Hg2.
    rewrite lookup_app_r, Nat.sub_diag by lia. simpl.
    unfold GetNextTupleSlot. by rewrite lookup_app_r, Nat.sub_diag by lia. }
  exists (set_indexes (indexes t) t2), location.
  rewrite Hrun. simpl. split_and!; try done.
  - unfold visible. by rewrite Hslot.
  - intros txn' tuples. unfold visible.
    by rewrite (InsertTuples_slot_stable txn' tuples _ location _ Hslot).
  - intros known rqs c' Hknown Hserve. rewrite Hrun in Hserve. simpl in Hserve.
    assert (location ∉ known) as Hout.
    { intros Hin. rewrite Forall_forall in Hknown.
      destruct (Hknown location Hin) as [s Hs]. congruence. }
    destruct (serve_all_keeps_slot rqs (mkCaller (set_indexes (indexes t) t2) known) c'
                location _ Hslot Hout Hserve) as [Hs' Hout'].
    split; [done|]. split; [done|]. unfold visible. by rewrite Hs'.
Qed.

(** The rollback scenario on [UNIQUE_SECONDARY_TABLE]: [GetTuple 1] is in
    the table; [GetSecondaryDuplicate] goes into the primary index and into
    the non-unique index, the unique secondary index refuses it, and the two
    entries are taken out again.  The caller then commits the first tuple and
    inserts another one: the first slot is visible, the slot of the refused
    tuple is not. *)
Lemma InsertTuple_unique_violation_rollback_witness :
  (TryInsertInIndexes_loop GetSecondaryDuplicate (mkItemPointer 0 1) []
     (take 2 (indexes (InsertTuple 1 (GetTuple 1) UNIQUE_SECONDARY_TABLE).2))).1 = true
  ∧ ∃ t' c',
      InsertTuple 2 GetSecondaryDuplicate
          (InsertTuple 1 (GetTuple 1) UNIQUE_SECONDARY_TABLE).2
        = (UniqueKeyViolation, t')
      ∧ indexes t' = indexes (InsertTuple 1 (GetTuple 1) UNIQUE_SECONDARY_TABLE).2
      ∧ visible t' (mkItemPointer 0 1) = false
      ∧ serve_all [DoInsert 2 GetSecondaryDuplicate;
                   DoCommit (mkItemPointer 0 0) 7;
                   DoInsert 3 (GetTuple 3)]
          (mkCaller (InsertTuple 1 (GetTuple 1) UNIQUE_SECONDARY_TABLE).2
             [mkItemPointer 0 0]) = Some c'
      ∧ visible (cl_table c') (mkItemPointer 0 0) = true
      ∧ visible (cl_table c') (mkItemPointer 0 1) = false.
Proof.
  split; [by vm_compute|].
  destruct (InsertTuple_unique_violation_rollback 2 GetSecondaryDuplicate
              (InsertTuple 1 (GetTuple 1) UNIQUE_SECONDARY_TABLE).2)
    as (t' & location & Hrun & _ & Hidx & _ & _ & Hslot & Hvis & _ & Hnever).
  - unfold entries_allocated. by_computation.
  - by vm_compute.
  - vm_compute. lia.
  - unfold key_collision. by_computation.
  - assert (location = mkItemPointer 0 1) as Hloc.
    { assert (slot_at (InsertTuple 2 GetSecondaryDuplicate
                         (InsertTuple 1 (GetTuple 1) UNIQUE_SECONDARY_TABLE).2).2 location
              = Some (mkSlot GetSecondaryDuplicate 2 None)) as Hs by (by rewrite Hrun).
      vm_compute in Hs. destruct location as [[|[|b]] [|[|[|o]]]]; by vm_compute in Hs. }
    subst location.
    destruct (serve_all [DoInsert 2 GetSecondaryDuplicate;
                         DoCommit (mkItemPointer 0 0) 7;
                         DoInsert 3 (GetTuple 3)]
                (mkCaller (InsertTuple 1 (GetTuple 1) UNIQUE_SECONDARY_TABLE).2
                   [mkItemPointer 0 0])) as [c'|] eqn:Hserve; [|by vm_compute in Hserve].
    exists t', c'. split; [exact Hrun|]. split; [exact Hidx|]. split; [exact Hvis|].
    split; [reflexivity|].
    destruct (Hnever [mkItemPointer 0 0]
                [DoCommit (mkItemPointer 0 0) 7; DoInsert 3 (GetTuple 3)] c')
      as (_ & _ & Hvis').
    + apply Forall_cons. split; [|apply Forall_nil_2].
      eexists. vm_compute. reflexivity.
    + exact Hserve.
    + split; [|exact Hvis'].
      vm_compute in Hserve. injection Hserve as <-. by vm_compute.
Defined.

End StorageFacts.

Module ExecutorExtra.
Import Executor ExecutorFacts.

(** ** The copy loops, read backwards *)

Lemma Tile_SetValue_inv v slot col t t' :
  Tile_SetValue v slot col t = Some t' →
  slot < tile_capacity t ∧ col < length (tile_schema t)
  ∧ t' = mkTile (tile_schema t) (tile_capacity t) (<[(slot, col) := v]> (tile_data t)).
Proof.
  unfold Tile_SetValue, in_range.
  destruct (slot <? tile_capacity t) eqn:Hs; [|done].
  destruct (col <? length (tile_schema t)) eqn:Hc; [|done].
  simpl. intros [= <-]. apply Nat.ltb_lt in Hs, Hc. done.
Qed.

(** What a completed copy of one column tells. *)
Lemma copy_rows_inv h src old new rows : ∀ k dest dest',
  copy_rows h src old new rows k dest = Some dest' →
  tile_schema dest' = tile_schema dest
  ∧ tile_capacity dest' = tile_capacity dest
  ∧ (∀ i row, rows !! i = Some row →
       k + i < tile_capacity dest ∧ new < length (tile_schema dest)
       ∧ is_Some (LT_GetValue h src row old)
       ∧ tile_data dest' !! (k + i, new) = LT_GetValue h src row old)
  ∧ (∀ r c, ¬ (c = new ∧ k ≤ r < k + length rows) →
       tile_data dest' !! (r, c) = tile_data dest !! (r, c)).
Proof.
  induction rows as [|row rows IH]; intros k dest dest' Hrun; simpl in Hrun.
  - injection Hrun as <-. by split_and!.
  - destruct (LT_GetValue h src row old) as [v|] eqn:Hv; [simpl in Hrun|done].
    destruct (Tile_SetValue v k new dest) as [dest1|] eqn:Hset; [simpl in Hrun|done].
    apply Tile_SetValue_inv in Hset as (Hk & Hnew & ->).
    destruct (IH _ _ _ Hrun) as (Hschema & Hcap & Hcells & Hframe). simpl in *.
    split_and!; try done.
    + intros [|i] row' Hi; simpl in Hi.
      * injection Hi as <-. rewrite Nat.add_0_r. split_and!; try done.
        rewrite Hframe by lia. by rewrite lookup_insert_eq.
      * destruct (Hcells i row' Hi) as (? & ? & ? & Hcell).
        replace (k + S i) with (S k + i) by lia. split_and!; try done; lia.
    + intros r c Hout. rewrite Hframe by lia.
      apply lookup_insert_ne. intros [= <- <-]. lia.
Qed.

Lemma copy_ok_shape h src m dest dest' old :
  tile_schema dest' = tile_schema dest → tile_capacity dest' = tile_capacity dest →
  copy_ok h src m dest old → copy_ok h src m dest' old.
Proof. unfold copy_ok. by intros -> ->. Qed.

(** What a completed copy of a list of columns tells. *)
Lemma copy_columns_inv h src m cols : ∀ dest dest',
  copy_columns h src m cols dest = Some dest' →
  tile_schema dest' = tile_schema dest
  ∧ tile_capacity dest' = tile_capacity dest
  ∧ Forall (copy_ok h src m dest) cols
  ∧ (∀ r c, ¬ (r < length (iterate src) ∧ ∃ old, old ∈ cols ∧ m !! old = Some c) →
       tile_data dest' !! (r, c) = tile_data dest !! (r, c)).
Proof.
  induction cols as [|old cols IH]; intros dest dest' Hrun; simpl in Hrun.
  - injection Hrun as <-. by split_and!.
  - destruct (m !! old) as [new|] eqn:Hm; [simpl in Hrun|done].
    destruct (copy_rows h src old new (iterate src) 0 dest) as [dest1|] eqn:Hrows;
      [simpl in Hrun|done].
    apply copy_rows_inv in Hrows as (Hschema1 & Hcap1 & Hcells1 & Hframe1).
    destruct (IH _ _ Hrun) as (Hschema & Hcap & Hcols & Hframe).
    split_and!; [congruence|congruence| |].
    + apply Forall_cons. split.
      * exists new. split; [done|]. split.
        -- apply Forall_forall. intros row Hrow.
           apply list_elem_of_lookup_1 in Hrow as [i Hi].
           by destruct (Hcells1 i row Hi) as (_ & _ & ? & _).
        -- destruct (iterate src) as [|row0 rows] eqn:Hrows; [by left|right].
           assert (length (row0 :: rows) - 1 < length (row0 :: rows)) as Hlast
             by (simpl; lia).
           destruct (lookup_lt_is_Some_2 _ _ Hlast) as [row Hrow].
           destruct (Hcells1 _ row Hrow) as (? & ? & _). simpl in *. lia.
      * eapply Forall_impl; [exact Hcols|]. intros old'.
        by apply copy_ok_shape.
    + intros r c Hout. rewrite Hframe.
      * apply Hframe1. intros (-> & Hr). apply Hout. split; [lia|].
        exists old. split; [apply elem_of_cons; by left|done].
      * intros (Hr & old' & Hin & Hm'). apply Hout. split; [done|].
        exists old'. split; [apply elem_of_cons; by right|done].
Qed.

Lemma copy_rows_total h src old new dest :
  Forall (λ row, is_Some (LT_GetValue h src row old)) (iterate src) →
  iterate src = []
  ∨ (new < length (tile_schema dest) ∧ length (iterate src) ≤ tile_capacity dest) →
  ∃ dest', copy_rows h src old new (iterate src) 0 dest = Some dest'
    ∧ tile_schema dest' = tile_schema dest ∧ tile_capacity dest' = tile_capacity dest.
Proof.
  intros Hread [Hnil|[Hnew Hcap]].
  - rewrite Hnil. by exists dest.
  - destruct (copy_rows_spec h src old new (iterate src) 0 dest)
      as (dest' & Hrun & ? & ? & _); [done|simpl; lia|done|].
    by exists dest'.
Qed.

Lemma copy_columns_total h src m cols : ∀ dest,
  Forall (copy_ok h src m dest) cols → is_Some (copy_columns h src m cols dest).
Proof.
  induction cols as [|old cols IH]; intros dest Hcols; simpl; [done|].
  apply Forall_cons in Hcols as [(new & Hm & Hread & Hroom) Hcols].
  rewrite Hm. simpl.
  destruct (copy_rows_total h src old new dest Hread Hroom) as (dest1 & -> & Hs & Hc).
  simpl. apply IH. eapply Forall_impl; [exact Hcols|]. intros old'.
  by apply copy_ok_shape.
Qed.

(** Without rows nothing is written. *)
Lemma copy_columns_no_rows h src m cols dest :
  iterate src = [] → Forall (λ old, is_Some (m !! old)) cols →
  copy_columns h src m cols dest = Some dest.
Proof.
  intros Hnil. induction 1 as [|old cols [new Hm] _ IH]; simpl; [done|].
  by rewrite Hm, Hnil.
Qed.

(** The column written last into a new column is the one found there. *)
Lemma copy_columns_last h src m pre old suf dest dest' new :
  copy_columns h src m (pre ++ old :: suf) dest = Some dest' →
  m !! old = Some new →
  (∀ o, o ∈ suf → m !! o ≠ Some new) →
  ∀ i row, iterate src !! i = Some row →
    tile_data dest' !! (i, new) = LT_GetValue h src row old.
Proof.
  intros Hrun Hm Hsuf i row Hrow.
  rewrite copy_columns_app in Hrun.
  destruct (copy_columns h src m pre dest) as [dest1|]; [simpl in Hrun|done].
  rewrite Hm in Hrun. simpl in Hrun.
  destruct (copy_rows h src old new (iterate src) 0 dest1) as [dest2|] eqn:Hrows;
    [simpl in Hrun|done].
  apply copy_rows_inv in Hrows as (_ & _ & Hcells & _).
  apply copy_columns_inv in Hrun as (_ & _ & _ & Hframe).
  rewrite Hframe.
  - by destruct (Hcells i row Hrow) as (_ & _ & _ & ?).
  - intros (_ & o & Hin & Ho). by apply (Hsuf o).
Qed.

(** ** The identity mapping *)

Lemma identity_loop_dom cols : ∀ acc : gmap oid_t oid_t,
  dom (foldl (λ m c, <[c := c]> m) acc cols) = list_to_set cols ∪ dom acc.
Proof.
  induction cols as [|c cols IH]; intros acc; simpl.
  - by rewrite union_empty_l_L.
  - rewrite IH, dom_insert_L. apply set_eq. intros x.
    rewrite !elem_of_union, elem_of_singleton. tauto.
Qed.

(** X1. [BuildIdentityMapping] maps every column id below the schema's
    column count to itself and holds no other key, so it has as many entries
    as the schema has columns; for a schema without columns it is empty. *)
Theorem BuildIdentityMapping_exact schema :
  (∀ col, BuildIdentityMapping schema !! col =
            if decide (col < GetColumnCount schema) then Some col else None)
  ∧ size (BuildIdentityMapping schema) = GetColumnCount schema
  ∧ (GetColumnCount schema = 0 → BuildIdentityMapping schema = ∅).
Proof.
  split_and!.
  - intros col. destruct (BuildIdentityMapping schema !! col) as [new|] eqn:E.
    + apply BuildIdentityMapping_lookup in E as [-> Hlt].
      unfold GetColumnCount. by rewrite decide_True.
    + case_decide as Hlt; [|done].
      assert (BuildIdentityMapping schema !! col = Some col) as Hin
        by (by apply BuildIdentityMapping_lookup).
      congruence.
  - unfold BuildIdentityMapping. rewrite <- size_dom, identity_loop_dom, dom_empty_L.
    rewrite union_empty_r_L, size_list_to_set by apply NoDup_seq.
    by rewrite length_seq.
  - unfold BuildIdentityMapping. by intros ->.
Qed.

(** ** The bucket map *)

Lemma GenerateTileToColMap_loop_inv src kvs : ∀ acc t2c,
  GenerateTileToColMap_loop kvs src acc = Some t2c →
  Forall (λ kv, is_Some (GetBaseTile (lt_schema src) kv.1)) kvs.
Proof.
  induction kvs as [|kv kvs IH]; intros acc t2c Hrun; simpl in Hrun; [done|].
  destruct (GetBaseTile (lt_schema src) kv.1) as [base|] eqn:Hbase; [simpl in Hrun|done].
  apply Forall_cons. split; [by rewrite Hbase|]. by eapply IH.
Qed.

Lemma buckets_of_push src processed acc base col :
  col ∉ processed →
  GetBaseTile (lt_schema src) col = Some base →
  buckets_of src processed acc →
  buckets_of src (processed ++ [col]) (push_col base col acc).
Proof.
  intros Hnew Hbase [Hacc Hall]. unfold push_col. split.
  - intros tile cols Hl.
    destruct (decide (tile = base)) as [->|Hne].
    + rewrite lookup_insert_eq in Hl. injection Hl as <-.
      destruct (acc !! base) as [cols0|] eqn:E; simpl.
      * destruct (Hacc base cols0 E) as (_ & Hnd & Hin). split_and!.
        -- by destruct cols0.
        -- apply NoDup_app. split_and!; [done| |apply NoDup_singleton].
           intros c Hc ->%list_elem_of_singleton. apply Hnew. by apply Hin.
        -- intros c. rewrite !elem_of_app, !list_elem_of_singleton, Hin.
           split; [intros [[? ?]| ->]; auto|].
           intros [[?| ->] ?]; auto.
      * split_and!; [done|apply NoDup_singleton|].
        intros c. rewrite elem_of_app, !list_elem_of_singleton.
        split; [intros ->; auto|].
        intros [[Hc| ->] Hb]; [|done]. exfalso.
        destruct (Hall c base Hc Hb) as [? ?]. congruence.
    + rewrite lookup_insert_ne in Hl by done.
      destruct (Hacc tile cols Hl) as (Hne' & Hnd & Hin). split_and!; [done|done|].
      intros c. rewrite Hin, elem_of_app, list_elem_of_singleton.
      split; [intros [? ?]; auto|].
      intros [[?| ->] Hb]; [done|]. congruence.
  - intros c tile Hc Hb.
    destruct (decide (tile = base)) as [->|Hne]; [by rewrite lookup_insert_eq|].
    rewrite lookup_insert_ne by done.
    apply elem_of_app in Hc as [Hc| ->%list_elem_of_singleton]; [by eapply Hall|].
    congruence.
Qed.

Lemma GenerateTileToColMap_loop_buckets_of src kvs : ∀ processed acc t2c,
  NoDup (processed ++ kvs.*1) →
  buckets_of src processed acc →
  GenerateTileToColMap_loop kvs src acc = Some t2c →
  buckets_of src (processed ++ kvs.*1) t2c.
Proof.
  induction kvs as [|kv kvs IH]; intros processed acc t2c Hnd Hacc Hrun; simpl in Hrun.
  - injection Hrun as <-. by rewrite app_nil_r.
  - destruct (GetBaseTile (lt_schema src) kv.1) as [base|] eqn:Hbase; [simpl in Hrun|done].
    assert (processed ++ (kv :: kvs).*1 = (processed ++ [kv.1]) ++ kvs.*1) as Heq
      by (by rewrite <- app_assoc).
    rewrite Heq in Hnd |- *.
    apply (IH _ (push_col base kv.1 acc) _ Hnd); [|done].
    apply buckets_of_push; [|done|done].
    apply NoDup_app in Hnd as (Hnd & _ & _).
    apply NoDup_app in Hnd as (_ & Hdisj & _).
    intros Hin. apply (Hdisj _ Hin). by apply list_elem_of_singleton.
Qed.

Section AnyOrderExtra.

Variable iter_cols : gmap oid_t oid_t → list (oid_t * oid_t).
Variable iter_tiles : gmap TilePtr (list oid_t) → list (TilePtr * list oid_t).
Hypothesis iter_cols_enum : ∀ m, iter_cols m ≡ₚ map_to_list m.
Hypothesis iter_tiles_enum : ∀ m, iter_tiles m ≡ₚ map_to_list m.

(** X2. [GenerateTileToColMap] groups the mapped columns by base tile: a
    bucket it builds is never empty, lists no column twice and holds exactly
    the keys of [old_to_new_cols] whose base tile is the bucket's key, and
    every key of [old_to_new_cols] sits in the bucket of its base tile. *)
Theorem GenerateTileToColMap_partition (m : gmap oid_t oid_t) src t2c :
  GenerateTileToColMap iter_cols m src ∅ = Some t2c →
  (∀ tile cols, t2c !! tile = Some cols →
     cols ≠ [] ∧ NoDup cols
     ∧ ∀ col, col ∈ cols ↔
         is_Some (m !! col) ∧ GetBaseTile (lt_schema src) col = Some tile)
  ∧ (∀ col, is_Some (m !! col) →
       ∃ tile cols, GetBaseTile (lt_schema src) col = Some tile
         ∧ t2c !! tile = Some cols ∧ col ∈ cols).
Proof.
  intros Hrun. unfold GenerateTileToColMap in Hrun.
  destruct (GenerateTileToColMap_loop_buckets_of src (iter_cols m) [] ∅ t2c)
    as [Hsound Hall]; [| |done|].
  { simpl. rewrite (iter_cols_enum m). apply NoDup_fst_map_to_list. }
  { split; [intros tile cols Hl; by rewrite lookup_empty in Hl|].
    intros col tile Hin. by apply elem_of_nil in Hin. }
  simpl in *. split.
  - intros tile cols Hl. destruct (Hsound tile cols Hl) as (? & ? & Hin).
    split_and!; [done|done|]. intros col.
    by rewrite Hin, (in_iter_cols iter_cols iter_cols_enum).
  - intros col Hcol.
    apply GenerateTileToColMap_loop_inv in Hrun as Hbase.
    apply (in_iter_cols iter_cols iter_cols_enum) in Hcol as Hkey.
    apply list_elem_of_fmap in Hkey as Hkv. destruct Hkv as (kv & -> & Hkv).
    rewrite Forall_forall in Hbase. destruct (Hbase kv Hkv) as [tile Htile].
    destruct (Hall kv.1 tile Hkey Htile) as [cols Hcols].
    exists tile, cols. split_and!; [done|done|].
    destruct (Hsound tile cols Hcols) as (_ & _ & Hin). by apply Hin.
Qed.

(** X3. [GenerateTileToColMap] completes exactly when every old column of
    the mapping is a column of the source tile; a key beyond the source's
    columns makes [GetBaseTile] index its vector out of bounds. *)
Theorem GenerateTileToColMap_completes_iff (m : gmap oid_t oid_t) src :
  is_Some (GenerateTileToColMap iter_cols m src ∅)
  ↔ map_Forall (λ old _, old < NumCols (lt_schema src)) m.
Proof.
  split.
  - intros [t2c Hrun] old new Hl. unfold GenerateTileToColMap in Hrun.
    apply GenerateTileToColMap_loop_inv in Hrun. rewrite Forall_forall in Hrun.
    assert ((old, new) ∈ iter_cols m) as Hkv
      by (rewrite (iter_cols_enum m); by apply elem_of_map_to_list).
    apply Hrun in Hkv. simpl in Hkv. by apply lookup_lt_is_Some in Hkv.
  - intros Hm.
    destruct (GenerateTileToColMap_spec iter_cols iter_cols_enum src m Hm) as (t2c & -> & _).
    by eexists.
Qed.

End AnyOrderExtra.

(** ** [MaterializeByTiles] *)

Section Materialize.

Variable iter_tiles : gmap TilePtr (list oid_t) → list (TilePtr * list oid_t).
Hypothesis iter_tiles_enum : ∀ m, iter_tiles m ≡ₚ map_to_list m.

(** X4. [MaterializeByTiles] runs to its end exactly when every column in a
    bucket is a key of [old_to_new_cols] (else the assertion on [find]
    trips), every yielded row can be read in it and, unless the source yields
    no row, its new column exists in the destination and the destination has
    a slot for every yielded row. *)
Theorem MaterializeByTiles_completes_iff h src (m : gmap oid_t oid_t) t2c dest :
  is_Some (MaterializeByTiles iter_tiles h src m t2c dest)
  ↔ ∀ old, bucketed t2c old → copy_ok h src m dest old.
Proof.
  unfold MaterializeByTiles. rewrite copy_buckets_join. split.
  - intros [dest' Hrun] old Hold.
    apply copy_columns_inv in Hrun as (_ & _ & Hcols & _).
    rewrite Forall_forall in Hcols. apply Hcols.
    by apply (in_iter_tiles iter_tiles iter_tiles_enum).
  - intros Hall. apply copy_columns_total, Forall_forall. intros old Hold.
    by apply Hall, (in_iter_tiles iter_tiles iter_tiles_enum).
Qed.

(** X5. [MaterializeByTiles] never changes the schema or the capacity of the
    destination tile, and it leaves alone every cell that is not in one of
    the first n rows (n the number of rows the source yields) of a column
    some bucketed old column is mapped to. *)
Theorem MaterializeByTiles_frame h src (m : gmap oid_t oid_t) t2c dest dest' :
  MaterializeByTiles iter_tiles h src m t2c dest = Some dest' →
  tile_schema dest' = tile_schema dest
  ∧ tile_capacity dest' = tile_capacity dest
  ∧ (∀ r c, ¬ (r < length (iterate src) ∧ ∃ old, bucketed t2c old ∧ m !! old = Some c) →
       tile_data dest' !! (r, c) = tile_data dest !! (r, c)).
Proof.
  unfold MaterializeByTiles. rewrite copy_buckets_join. intros Hrun.
  apply copy_columns_inv in Hrun as (Hschema & Hcap & _ & Hframe).
  split_and!; [done|done|]. intros r c Hout. apply Hframe.
  intros (Hr & old & Hin & Hm). apply Hout. split; [done|]. exists old.
  split; [|done]. by apply (in_iter_tiles iter_tiles iter_tiles_enum).
Qed.

(** X7. When the source yields no row, [MaterializeByTiles] returns the
    destination tile exactly as it was given, provided only that every
    bucketed column is a key of [old_to_new_cols]: no value is read and no
    cell is written. *)
Theorem MaterializeByTiles_no_rows h src (m : gmap oid_t oid_t) t2c dest :
  iterate src = [] →
  (∀ old, bucketed t2c old → is_Some (m !! old)) →
  MaterializeByTiles iter_tiles h src m t2c dest = Some dest.
Proof.
  intros Hnil Hkeys. unfold MaterializeByTiles. rewrite copy_buckets_join.
  apply copy_columns_no_rows; [done|]. apply Forall_forall. intros old Hold.
  by apply Hkeys, (in_iter_tiles iter_tiles iter_tiles_enum).
Qed.

End Materialize.

(** X6. When several old columns are mapped to one new column, the new
    column holds the values of the one [MaterializeByTiles] copies last:
    if the columns are copied in the order [pre ++ old :: suf] and no column
    of [suf] is mapped to [old]'s new column, then after the run cell
    (i, new) holds the source's value at (i-th yielded row, [old]). *)
Theorem MaterializeByTiles_last_writer iter_tiles h src (m : gmap oid_t oid_t)
    t2c dest dest' pre old suf new :
  MaterializeByTiles iter_tiles h src m t2c dest = Some dest' →
  mjoin (iter_tiles t2c).*2 = pre ++ old :: suf →
  m !! old = Some new →
  (∀ o, o ∈ suf → m !! o ≠ Some new) →
  ∀ i row, iterate src !! i = Some row →
    tile_data dest' !! (i, new) = LT_GetValue h src row old.
Proof.
  unfold MaterializeByTiles. rewrite copy_buckets_join. intros Hrun Horder.
  rewrite Horder in Hrun. intros Hm Hsuf.
  by apply (copy_columns_last h src m pre old suf dest dest' new).
Qed.

(** ** [Physify] *)

Lemma LT_GetValue_heap_mono (h h' : Heap) t r c v :
  (∀ q tile, h !! q = Some tile → h' !! q = Some tile) →
  LT_GetValue h t r c = Some v → LT_GetValue h' t r c = Some v.
Proof.
  unfold LT_GetValue. intros Hmono Hv.
  destruct (GetBaseTile (lt_schema t) c) as [base|]; [simpl in *|done].
  destruct (h !! base) as [tile|] eqn:Htile; [simpl in *|done].
  by rewrite (Hmono base tile Htile).
Qed.

Lemma physical_column_heap_mono (h h' : Heap) s c ci :
  (∀ q tile, h !! q = Some tile → h' !! q = Some tile) →
  physical_column h s c = Some ci → physical_column h' s c = Some ci.
Proof.
  unfold physical_column. intros Hmono Hv.
  destruct (GetBaseTile s c) as [base|]; [simpl in *|done].
  destruct (h !! base) as [tile|] eqn:Htile; [simpl in *|done].
  by rewrite (Hmono base tile Htile).
Qed.

(** A well-formed source stays well formed when tiles are added to the
    heap. *)
Lemma source_ok_heap_mono (h h' : Heap) src :
  (∀ q tile, h !! q = Some tile → h' !! q = Some tile) →
  source_ok h src = true → source_ok h' src = true.
Proof.
  intros Hmono. unfold source_ok. rewrite !andb_true_iff.
  intros (Hrest & Hcols). split; [done|].
  rewrite forallb_forall in *. intros col Hcol. specialize (Hcols col Hcol).
  unfold column_ok in *.
  destruct (physical_column h (lt_schema src) col) as [ci|] eqn:Hci; [|done].
  rewrite (physical_column_heap_mono h h' _ _ ci Hmono Hci).
  rewrite forallb_forall in *. intros row Hrow. specialize (Hcols row Hrow).
  apply bool_decide_eq_true in Hcols as [v Hv]. apply bool_decide_eq_true.
  exists v. by apply (LT_GetValue_heap_mono h h').
Qed.

(** X8. A completed [Physify] leaves every tile of the heap as it was and
    adds exactly one tile, at an address that was free; the logical tile it
    returns wraps that tile and owns it, has one row per tuple the source
    counts, numbered from 0, and one column per column of the output schema;
    the source tile reads the same values afterwards.  This holds for every
    plan node and every mapping. *)
Theorem Physify_frame ic it node h src h' out :
  Physify ic it node h src = Some (h', out) →
  ∃ dest sschema,
    GetPhysicalSchema h src = Some sschema
    ∧ h !! alloc h = None
    ∧ h' = <[alloc h := dest]> h
    ∧ out = WrapTiles (alloc h) dest true
    ∧ tile_schema dest = (resolve_mapping node sschema).1
    ∧ tile_capacity dest = GetTupleCount src
    ∧ iterate out = seq 0 (GetTupleCount src)
    ∧ NumCols (lt_schema out) = length (resolve_mapping node sschema).1
    ∧ own_base_tile out = true
    ∧ (∀ q tile, h !! q = Some tile → h' !! q = Some tile)
    ∧ (∀ r c v, LT_GetValue h src r c = Some v → LT_GetValue h' src r c = Some v).
Proof.
  unfold Physify. intros Hrun.
  destruct (GetPhysicalSchema h src) as [sschema|]; [simpl in Hrun|done].
  destruct (resolve_mapping node sschema) as [oschema m] eqn:Hres.
  destruct (GenerateTileToColMap ic m src ∅) as [t2c|]; [simpl in Hrun|done].
  destruct (MaterializeByTiles it h src m t2c (GetTempTile oschema (GetTupleCount src)))
    as [dest|] eqn:Hmat; [simpl in Hrun|done].
  injection Hrun as <- <-.
  unfold MaterializeByTiles in Hmat. rewrite copy_buckets_join in Hmat.
  apply copy_columns_inv in Hmat as (Hschema & Hcap & _ & _). simpl in *.
  assert (∀ q tile, h !! q = Some tile → <[alloc h := dest]> h !! q = Some tile) as Hmono.
  { intros q tile Hq. rewrite lookup_insert_ne; [done|].
    intros <-. by rewrite alloc_fresh in Hq. }
  exists dest, sschema. rewrite Hres. simpl. split_and!; try done.
  - apply alloc_fresh.
  - by rewrite Hcap.
  - unfold NumCols. rewrite wrap_schema_eq. simpl. by rewrite length_replicate, Hschema.
  - intros r c v. by apply LT_GetValue_heap_mono.
Qed.

Section PhysifyTwice.

Variable iter_cols : gmap oid_t oid_t → list (oid_t * oid_t).
Variable iter_tiles : gmap TilePtr (list oid_t) → list (TilePtr * list oid_t).
Hypothesis iter_cols_enum : ∀ m, iter_cols m ≡ₚ map_to_list m.
Hypothesis iter_tiles_enum : ∀ m, iter_tiles m ≡ₚ map_to_list m.

(** The destination tile of an identity [Physify], cell by cell. *)
Lemma identity_Physify_data node h src :
  implicit_identity node →
  source_ok h src = true →
  ∃ dest, Physify iter_cols iter_tiles node h src =
            Some (<[alloc h := dest]> h, WrapTiles (alloc h) dest true)
    ∧ length (tile_schema dest) = NumCols (lt_schema src)
    ∧ tile_capacity dest = length (iterate src)
    ∧ (∀ i row col, iterate src !! i = Some row → col < NumCols (lt_schema src) →
         is_Some (LT_GetValue h src row col)
         ∧ tile_data dest !! (i, col) = LT_GetValue h src row col).
Proof.
  intros Hid Hok.
  destruct (source_ok_schema h src Hok) as (sschema & Hs & Hlen).
  assert (resolve_mapping node sschema = (sschema, BuildIdentityMapping sschema)) as Hres.
  { destruct node as [n|]; simpl in *; [by rewrite Hid|done]. }
  destruct (Physify_spec iter_cols iter_tiles iter_cols_enum iter_tiles_enum
              node h src sschema sschema (BuildIdentityMapping sschema))
    as (dest & Hrun & Hschema & Hcapacity & Hnew & _); try done.
  { apply BuildIdentityMapping_injective. }
  { intros old new Hl. apply BuildIdentityMapping_lookup in Hl. lia. }
  exists dest. split_and!; [done|by rewrite Hschema|done|].
  intros i row col Hrow Hcol. split.
  - destruct (source_ok_column h src col Hok Hcol) as [_ Hread].
    rewrite Forall_forall in Hread. apply Hread. by eapply list_elem_of_lookup_2.
  - apply (Hnew col col i row); [|done]. apply BuildIdentityMapping_lookup. lia.
Qed.

(** A wrapped tile all of whose cells hold a value is a well-formed
    source. *)
Lemma WrapTiles_source_ok (h : Heap) p dest own :
  (∀ i col, i < tile_capacity dest → col < length (tile_schema dest) →
     is_Some (tile_data dest !! (i, col))) →
  source_ok (<[p := dest]> h) (WrapTiles p dest own) = true.
Proof.
  intros Hcells.
  unfold source_ok, GetTupleCount, iterate, NumCols. simpl.
  rewrite wrap_schema_eq. simpl.
  rewrite length_seq, !length_replicate, length_seq, !Nat.eqb_refl. simpl.
  apply forallb_forall. intros col Hcol. apply in_seq in Hcol.
  unfold column_ok, physical_column, GetBaseTile, GetOriginColumnId, iterate. simpl.
  rewrite wrap_schema_eq. simpl.
  rewrite lookup_replicate_2 by lia. simpl. rewrite lookup_insert_eq. simpl.
  rewrite lookup_seq_lt by lia. simpl.
  destruct (tile_schema dest !! col) as [ci|] eqn:Hci;
    [|apply lookup_ge_None in Hci; lia].
  apply forallb_forall. intros i Hi. apply in_seq in Hi.
  apply bool_decide_eq_true.
  rewrite LT_GetValue_WrapTiles. unfold Tile_GetValue, in_range.
  assert ((i <? tile_capacity dest) = true) as -> by (apply Nat.ltb_lt; lia).
  assert ((col <? length (tile_schema dest)) = true) as -> by (apply Nat.ltb_lt; lia).
  simpl. apply Hcells; lia.
Qed.

Lemma identity_Physify_cells (h : Heap) src dest :
  length (tile_schema dest) = NumCols (lt_schema src) →
  tile_capacity dest = length (iterate src) →
  (∀ i row col, iterate src !! i = Some row → col < NumCols (lt_schema src) →
     is_Some (LT_GetValue h src row col)
     ∧ tile_data dest !! (i, col) = LT_GetValue h src row col) →
  ∀ i col, i < tile_capacity dest → col < length (tile_schema dest) →
    is_Some (tile_data dest !! (i, col)).
Proof.
  intros Hncols Hcap Hcells i col Hi Hcol.
  destruct (lookup_lt_is_Some_2 (iterate src) i) as [row Hrow]; [lia|].
  destruct (Hcells i row col Hrow) as [Hsome ->]; [lia|done].
Qed.

(** X9. Well-formedness is kept by identity materialization: the tile an
    identity [Physify] returns for a well-formed source is itself a
    well-formed source in the new heap (its count is the number of rows it
    yields and every cell of every column can be read), and so is the old
    source; its output can therefore be fed to another executor. *)
Theorem Physify_keeps_source_ok node h src :
  implicit_identity node →
  source_ok h src = true →
  ∃ h' out, Physify iter_cols iter_tiles node h src = Some (h', out)
    ∧ source_ok h' out = true
    ∧ source_ok h' src = true.
Proof.
  intros Hid Hok.
  destruct (identity_Physify_data node h src Hid Hok)
    as (dest & Hrun & Hncols & Hcap & Hcells).
  exists (<[alloc h := dest]> h), (WrapTiles (alloc h) dest true).
  split; [done|]. split.
  - apply WrapTiles_source_ok. by apply (identity_Physify_cells h src).
  - apply (source_ok_heap_mono h); [|done].
    intros q tile Hq. rewrite lookup_insert_ne; [done|].
    intros <-. by rewrite alloc_fresh in Hq.
Qed.

(** X10. Materializing twice gives the same tile contents as materializing
    once: an identity [Physify] of the output of an identity [Physify]
    yields a tile with the same rows 0..n-1 and, in every cell, the value the
    first output has there (which is the source's). *)
Theorem Physify_twice node1 node2 h src :
  implicit_identity node1 → implicit_identity node2 →
  source_ok h src = true →
  ∃ h1 out1 h2 out2,
    Physify iter_cols iter_tiles node1 h src = Some (h1, out1)
    ∧ Physify iter_cols iter_tiles node2 h1 out1 = Some (h2, out2)
    ∧ iterate out2 = iterate out1
    ∧ NumCols (lt_schema out2) = NumCols (lt_schema out1)
    ∧ (∀ i row col, iterate src !! i = Some row → col < NumCols (lt_schema src) →
         LT_GetValue h2 out2 i col = LT_GetValue h1 out1 i col
         ∧ LT_GetValue h1 out1 i col = LT_GetValue h src row col).
Proof.
  intros Hid1 Hid2 Hok.
  destruct (identity_Physify_data node1 h src Hid1 Hok)
    as (dest1 & Hrun1 & Hncols1 & Hcap1 & Hcells1).
  assert (source_ok (<[alloc h := dest1]> h) (WrapTiles (alloc h) dest1 true) = true)
    as Hok1
    by (apply WrapTiles_source_ok; by apply (identity_Physify_cells h src)).
  destruct (identity_Physify_data node2 _ _ Hid2 Hok1)
    as (dest2 & Hrun2 & Hncols2 & Hcap2 & Hcells2).
  eexists _, _, _, _. split; [done|]. split; [done|].
  assert (NumCols (lt_schema (WrapTiles (alloc h) dest1 true)) = NumCols (lt_schema src))
    as Hn1.
  { unfold NumCols. simpl. rewrite wrap_schema_eq. simpl.
    by rewrite length_replicate. }
  assert (iterate (WrapTiles (alloc h) dest1 true) = seq 0 (length (iterate src))) as Hrows1
    by (unfold iterate; simpl; by rewrite Hcap1).
  rewrite Hrows1, length_seq in Hcap2. rewrite Hn1 in Hncols2.
  split_and!.
  - rewrite Hrows1. unfold iterate. simpl. by rewrite Hcap2.
  - rewrite Hn1. unfold NumCols. simpl. rewrite wrap_schema_eq. simpl.
    by rewrite length_replicate.
  - intros i row col Hrow Hcol. apply lookup_lt_Some in Hrow as Hi.
    assert (LT_GetValue (<[alloc h := dest1]> h) (WrapTiles (alloc h) dest1 true) i col
            = LT_GetValue h src row col) as H1.
    { rewrite LT_GetValue_WrapTiles. unfold Tile_GetValue, in_range.
      assert ((i <? tile_capacity dest1) = true) as -> by (apply Nat.ltb_lt; lia).
      assert ((col <? length (tile_schema dest1)) = true) as ->
        by (apply Nat.ltb_lt; lia).
      simpl. by destruct (Hcells1 i row col Hrow Hcol). }
    split; [|done].
    rewrite LT_GetValue_WrapTiles. unfold Tile_GetValue, in_range.
    assert ((i <? tile_capacity dest2) = true) as -> by (apply Nat.ltb_lt; lia).
    assert ((col <? length (tile_schema dest2)) = true) as ->
      by (apply Nat.ltb_lt; lia).
    simpl.
    destruct (Hcells2 i i col) as [_ ->]; [|lia|done].
    rewrite Hrows1. by apply lookup_seq_lt.
Qed.

(** X11. [Physify] faults when the mapping names a column that does not
    exist: an old column beyond the source's columns (whatever the rows),
    or, when the source yields at least one row, a new column beyond the
    columns of the output schema. *)
Theorem Physify_faults_on_missing_column n oschema h src old new :
  node_schema n = Some oschema →
  node_old_to_new_cols n !! old = Some new →
  NumCols (lt_schema src) ≤ old ∨ (length oschema ≤ new ∧ iterate src ≠ []) →
  Physify iter_cols iter_tiles (Some n) h src = None.
Proof.
  intros Hn Hm Hbad. unfold Physify.
  destruct (GetPhysicalSchema h src) as [sschema|]; [simpl|done]. rewrite Hn.
  destruct (GenerateTileToColMap iter_cols (node_old_to_new_cols n) src ∅)
    as [t2c|] eqn:Hgen; [simpl|done].
  assert (old < NumCols (lt_schema src)) as Hold.
  { unfold GenerateTileToColMap in Hgen.
    apply GenerateTileToColMap_loop_inv in Hgen. rewrite Forall_forall in Hgen.
    assert ((old, new) ∈ iter_cols (node_old_to_new_cols n)) as Hkv
      by (rewrite (iter_cols_enum _); by apply elem_of_map_to_list).
    apply Hgen in Hkv. simpl in Hkv. by apply lookup_lt_is_Some in Hkv. }
  destruct Hbad as [?|[Hnew Hrows]]; [lia|].
  destruct (MaterializeByTiles iter_tiles h src (node_old_to_new_cols n) t2c
              (GetTempTile oschema (GetTupleCount src))) as [dest|] eqn:Hmat; [|done].
  exfalso. unfold MaterializeByTiles in Hmat. rewrite copy_buckets_join in Hmat.
  apply copy_columns_inv in Hmat as (_ & _ & Hcols & _).
  rewrite Forall_forall in Hcols.
  destruct (Hcols old) as (new' & Hm' & _ & [Hnil|[Hlt _]]).
  - apply (in_iter_tiles iter_tiles iter_tiles_enum).
    apply (GenerateTileToColMap_buckets iter_cols iter_cols_enum src _ t2c Hgen).
    by eexists.
  - done.
  - simpl in Hlt. assert (new' = new) by congruence. lia.
Qed.

(** X12. With a schema and an empty mapping [Physify] copies nothing: on a
    well-formed source it returns a tile shaped by the schema, with one row
    per source row, in which no cell holds a value. *)
Theorem Physify_empty_mapping n oschema h src :
  node_schema n = Some oschema →
  node_old_to_new_cols n = ∅ →
  source_ok h src = true →
  ∃ h' out, Physify iter_cols iter_tiles (Some n) h src = Some (h', out)
    ∧ NumCols (lt_schema out) = length oschema
    ∧ iterate out = seq 0 (length (iterate src))
    ∧ ∀ r c, LT_GetValue h' out r c = None.
Proof.
  intros Hn Hempty Hok.
  destruct (source_ok_schema h src Hok) as (sschema & Hs & Hlen).
  destruct (Physify_spec iter_cols iter_tiles iter_cols_enum iter_tiles_enum
              (Some n) h src sschema oschema ∅)
    as (dest & Hrun & Hschema & Hcap & _ & Hnone); try done.
  { simpl. by rewrite Hn, Hempty. }
  eexists _, _. split; [done|]. split_and!.
  - unfold NumCols. simpl. rewrite wrap_schema_eq. simpl.
    by rewrite length_replicate, Hschema.
  - unfold iterate at 1. simpl. by rewrite Hcap.
  - intros r c. rewrite LT_GetValue_WrapTiles. unfold Tile_GetValue.
    destruct (in_range dest r c); [|done]. apply Hnone.
    intros (_ & old & Hl). by rewrite lookup_empty in Hl.
Qed.

End PhysifyTwice.

(** ** [DExecute] *)

(** X13. Pass-through: when the plan node switches physicalizing off and the
    child hands over a tile with at least one tuple, [DExecute] returns true
    and holds that very tile as output; the heap is untouched and nothing is
    required of the tile (no value of it is read). *)
Theorem DExecute_pass_through ic it h ex child others n t :
  children_ ex = child :: others →
  node_ ex = Some n → node_physify_flag n = false →
  pulled child = Some t → GetTupleCount t ≠ 0 →
  ∃ ex', DExecute ic it h ex = Some (true, h, ex') ∧ output_ ex' = Some t.
Proof.
  intros Hchildren Hnode Hflag Hpull Hcount.
  unfold DExecute, pulled in *. rewrite Hchildren. simpl.
  destruct (child_Execute child) as [[|] child']; [simpl in *|done].
  rewrite Hpull. simpl.
  apply Nat.eqb_neq in Hcount as ->. rewrite Hnode, Hflag.
  by eexists.
Qed.

(** X14. What a completed [DExecute] does to the executor: the plan node and
    all children but the first are as before, and the first child has been
    asked exactly once (one entry of its script is consumed). *)
Theorem DExecute_state ic it h ex b h' ex' :
  DExecute ic it h ex = Some (b, h', ex') →
  node_ ex' = node_ ex
  ∧ length (children_ ex') = length (children_ ex)
  ∧ (∀ i, i ≠ 0 → children_ ex' !! i = children_ ex !! i)
  ∧ ∃ child child',
      children_ ex !! 0 = Some child ∧ children_ ex' !! 0 = Some child'
      ∧ child_pending child' = tail (child_pending child)
      ∧ child_init child' = child_init child.
Proof.
  unfold DExecute. intros Hrun.
  destruct (children_ ex !! 0) as [child|] eqn:Hchild; [simpl in Hrun|done].
  assert (0 < length (children_ ex)) as Hlen by (by eapply lookup_lt_Some).
  assert (∀ c x, node_ x = node_ ex → children_ x = <[0 := c]> (children_ ex) →
            child_pending c = tail (child_pending child) →
            child_init c = child_init child →
            node_ x = node_ ex
            ∧ length (children_ x) = length (children_ ex)
            ∧ (∀ i, i ≠ 0 → children_ x !! i = children_ ex !! i)
            ∧ ∃ child0 child', Some child = Some child0 ∧ children_ x !! 0 = Some child'
                ∧ child_pending child' = tail (child_pending child0)
                ∧ child_init child' = child_init child0) as Hgoal.
  { intros c x Hnode -> Hpending Hinit. split_and!; [done|by rewrite length_insert| |].
    - intros i Hi. by rewrite list_lookup_insert_ne.
    - exists child, c. by rewrite list_lookup_insert_eq. }
  unfold child_Execute in Hrun.
  destruct (child_pending child) as [|[t|] rest] eqn:Hpending; simpl in Hrun.
  - injection Hrun as <- <- <-. apply (Hgoal child); try done.
  - destruct (GetTupleCount t =? 0); simpl in Hrun.
    + injection Hrun as <- <- <-. by eapply Hgoal.
    + destruct (match node_ ex with
                | Some node => node_physify_flag node
                | None => true
                end).
      * destruct (Physify ic it (node_ ex) h t) as [[h1 out]|]; [simpl in Hrun|done].
        injection Hrun as <- <- <-. by eapply Hgoal.
      * injection Hrun as <- <- <-. by eapply Hgoal.
  - injection Hrun as <- <- <-. by eapply Hgoal.
Qed.

(** X15. A false from [DExecute] does not mean the child is exhausted: when
    the child hands over a tile without tuples and then one with tuples, the
    first [DExecute] returns false (dropping the empty tile, heap unchanged)
    and the next one returns true with an output tile. *)
Theorem DExecute_empty_then_next ic it h ex init t0 t1 rest held others :
  children_ ex = mkChild init (Some t0 :: Some t1 :: rest) held :: others →
  GetTupleCount t0 = 0 → GetTupleCount t1 ≠ 0 →
  is_Some (Physify ic it (node_ ex) h t1) →
  ∃ ex1 h2 ex2,
    DExecute ic it h ex = Some (false, h, ex1)
    ∧ output_ ex1 = output_ ex
    ∧ DExecute ic it h ex1 = Some (true, h2, ex2)
    ∧ is_Some (output_ ex2).
Proof.
  intros Hchildren H0 H1 [[hp outp] Hphys].
  destruct ex as [children node output]. simpl in *. subst children.
  unfold DExecute. simpl. rewrite H0. simpl.
  apply Nat.eqb_neq in H1.
  destruct (match node with
            | Some node => node_physify_flag node
            | None => true
            end) eqn:Hflag.
  - eexists _, hp, _. split; [done|]. split; [done|].
    unfold set_child0, child_Execute. simpl. rewrite H1, Hflag, Hphys. simpl.
    split; [done|]. by eexists.
  - eexists _, h, _. split; [done|]. split; [done|].
    unfold set_child0, child_Execute. simpl. rewrite H1, Hflag.
    split; [done|]. by eexists.
Qed.

(** X16. [ExecuteTile] on a materialization executor: for an executor
    without children whose plan node, if there is one, has physicalizing
    switched on and no schema, and a well-formed source tile with at least
    one tuple, all four expectations of [ExecuteTile] are met, and the tile
    it returns is the one [Physify] makes of the source. *)
Theorem ExecuteTile_expectations ic it ndebug node h held tile :
  (∀ m, ic m ≡ₚ map_to_list m) → (∀ m, it m ≡ₚ map_to_list m) →
  implicit_identity node →
  (∀ n, node = Some n → node_physify_flag n = true) →
  source_ok h tile = true →
  GetTupleCount tile ≠ 0 →
  ∃ h' out,
    Physify ic it node h tile = Some (h', out)
    ∧ ExecuteTile ic it ndebug h (mkExecutor [] node held) tile
        = Some (mkExecuteTile_run (Returns true) true (Some out) false h')
    ∧ expectations_met (mkExecuteTile_run (Returns true) true (Some out) false h').
Proof.
  intros Hic Hit Hid Hflag Hok Hcount.
  destruct (identity_Physify_data ic it Hic Hit node h tile Hid Hok)
    as (dest & Hrun & _).
  eexists _, _. split; [exact Hrun|]. split.
  - unfold ExecuteTile, DExecute, Init, DInit. simpl.
    apply Nat.eqb_neq in Hcount as ->.
    assert (match node with
            | Some node => node_physify_flag node
            | None => true
            end = true) as -> by (destruct node as [n|]; [by apply Hflag|done]).
    rewrite Hrun. simpl. by rewrite andb_false_r.
  - unfold expectations_met. simpl. by split_and!.
Qed.

(** *** The theorems at the sample tiles *)

(** Splits a membership in a list that evaluates to a literal into its
    cases. *)
Ltac list_cases H :=
  vm_compute in H;
  repeat (apply elem_of_cons in H as [H|H]);
  try (by apply elem_of_nil in H).

Lemma GenerateTileToColMap_partition_witness :
  ∃ t2c cols,
    GenerateTileToColMap map_to_list
      (BuildIdentityMapping (omap GetColumnInfo [0; 1; 2; 3])) sample_source ∅ = Some t2c
    ∧ t2c !! 1 = Some cols ∧ NoDup cols ∧ 0 ∈ cols ∧ 2 ∉ cols.
Proof.
  destruct (GenerateTileToColMap map_to_list
              (BuildIdentityMapping (omap GetColumnInfo [0; 1; 2; 3])) sample_source ∅)
    as [t2c|] eqn:E; [|by vm_compute in E].
  destruct (GenerateTileToColMap_partition map_to_list (λ _, reflexivity _) _ _ _ E)
    as [Hsound Hall].
  destruct (Hall 0) as (tile & cols & Htile & Hcols & Hin); [by eexists|].
  vm_compute in Htile. injection Htile as <-.
  destruct (Hsound 1 cols Hcols) as (_ & Hnd & Hmem).
  exists t2c, cols. split_and!; try done.
  intros H2. apply Hmem in H2 as [_ H2]. by vm_compute in H2.
Defined.

Lemma GenerateTileToColMap_completes_iff_witness :
  GenerateTileToColMap map_to_list (node_old_to_new_cols dangling_node) sample_source ∅
    = None.
Proof.
  destruct (GenerateTileToColMap map_to_list (node_old_to_new_cols dangling_node)
              sample_source ∅) as [t2c|] eqn:E; [exfalso|done].
  assert (is_Some (GenerateTileToColMap map_to_list (node_old_to_new_cols dangling_node)
                     sample_source ∅)) as Hsome by (by rewrite E).
  apply (proj1 (GenerateTileToColMap_completes_iff map_to_list (λ _, reflexivity _) _ _))
    in Hsome.
  specialize (Hsome 5 0 (lookup_singleton_eq _ _)). vm_compute in Hsome. lia.
Defined.

Lemma sample_buckets_3 : bucketed sample_buckets 3.
Proof.
  exists 2, [2; 3]. split; [by vm_compute|].
  apply elem_of_cons. right. apply elem_of_cons. by left.
Qed.

Lemma MaterializeByTiles_completes_iff_witness :
  copy_ok sample_heap sample_source (BuildIdentityMapping (omap GetColumnInfo [0; 1; 2; 3]))
    (GetTempTile (omap GetColumnInfo [0; 1; 2; 3]) 2) 3.
Proof.
  apply (proj1 (MaterializeByTiles_completes_iff map_to_list (λ _, reflexivity _)
                  sample_heap sample_source
                  (BuildIdentityMapping (omap GetColumnInfo [0; 1; 2; 3]))
                  sample_buckets (GetTempTile (omap GetColumnInfo [0; 1; 2; 3]) 2))).
  - by_computation.
  - exact sample_buckets_3.
Defined.

Lemma MaterializeByTiles_frame_witness :
  ∃ dest',
    MaterializeByTiles map_to_list sample_heap sample_source
      (node_old_to_new_cols reorder_node) reorder_buckets used_tile = Some dest'
    ∧ tile_capacity dest' = 2
    ∧ tile_data dest' !! (0, 2) = Some (IntegerValue 7).
Proof.
  destruct (MaterializeByTiles map_to_list sample_heap sample_source
              (node_old_to_new_cols reorder_node) reorder_buckets used_tile)
    as [dest'|] eqn:E; [|by vm_compute in E].
  destruct (MaterializeByTiles_frame map_to_list (λ _, reflexivity _) _ _ _ _ _ _ E)
    as (_ & Hcap & Hframe).
  exists dest'. split; [done|]. split; [exact Hcap|].
  rewrite Hframe; [by vm_compute|].
  intros (_ & old & _ & Hm). apply elem_of_map_to_list in Hm. list_cases Hm; done.
Defined.

Lemma MaterializeByTiles_last_writer_witness :
  ∃ dest',
    MaterializeByTiles map_to_list join_heap join_source
      (node_old_to_new_cols clash_node) clash_buckets
      (GetTempTile (omap GetColumnInfo [0]) 3) = Some dest'
    ∧ tile_data dest' !! (1, 0) = Some (IntegerValue 10).
Proof.
  destruct (MaterializeByTiles map_to_list join_heap join_source
              (node_old_to_new_cols clash_node) clash_buckets
              (GetTempTile (omap GetColumnInfo [0]) 3))
    as [dest'|] eqn:E; [|by vm_compute in E].
  exists dest'. split; [done|].
  rewrite (MaterializeByTiles_last_writer map_to_list join_heap join_source
             (node_old_to_new_cols clash_node) clash_buckets _ dest' [1] 0 [] 0 E
             eq_refl eq_refl) with (row := 1).
  - by vm_compute.
  - intros o Ho. by apply elem_of_nil in Ho.
  - reflexivity.
Defined.

Lemma MaterializeByTiles_no_rows_witness :
  MaterializeByTiles map_to_list sample_heap empty_view
    (node_old_to_new_cols reorder_node) reorder_buckets used_tile = Some used_tile.
Proof.
  apply (MaterializeByTiles_no_rows map_to_list (λ _, reflexivity _)); [reflexivity|].
  intros old (tile & cols & Hl & Hin).
  apply elem_of_map_to_list in Hl. list_cases Hl;
    injection Hl as -> ->; list_cases Hin; subst old; by_computation.
Defined.

Lemma Physify_frame_witness :
  ∃ h' out,
    Physify map_to_list map_to_list (Some clash_node) join_heap join_source = Some (h', out)
    ∧ h' !! 1 = Some sample_tile1
    ∧ iterate out = [0; 1; 2]
    ∧ NumCols (lt_schema out) = 1.
Proof.
  destruct (Physify map_to_list map_to_list (Some clash_node) join_heap join_source)
    as [[h' out]|] eqn:E; [|by vm_compute in E].
  destruct (Physify_frame _ _ _ _ _ _ _ E)
    as (dest & sschema & _ & _ & _ & _ & _ & _ & Hrows & Hcols & _ & Hmono & _).
  exists h', out. split; [done|]. split; [by apply Hmono|]. split; [exact Hrows|].
  rewrite Hcols. destruct (GetPhysicalSchema join_heap join_source); reflexivity.
Defined.

Lemma Physify_keeps_source_ok_witness :
  ∃ h' out,
    Physify map_to_list map_to_list None sample_heap sample_source = Some (h', out)
    ∧ source_ok h' out = true
    ∧ source_ok h' sample_source = true.
Proof.
  apply (Physify_keeps_source_ok map_to_list map_to_list
           (λ _, reflexivity _) (λ _, reflexivity _)); [exact I|reflexivity].
Defined.

Lemma Physify_twice_witness :
  ∃ h1 out1 h2 out2,
    Physify map_to_list map_to_list None sample_heap sample_source = Some (h1, out1)
    ∧ Physify map_to_list map_to_list None h1 out1 = Some (h2, out2)
    ∧ iterate out2 = iterate out1
    ∧ LT_GetValue h2 out2 0 3 = Some (StringValue "23").
Proof.
  destruct (Physify_twice map_to_list map_to_list
              (λ _, reflexivity _) (λ _, reflexivity _) None None sample_heap sample_source)
    as (h1 & out1 & h2 & out2 & Hrun1 & Hrun2 & Hrows & _ & Hvals);
    [exact I|exact I|reflexivity|].
  exists h1, out1, h2, out2. split; [exact Hrun1|]. split; [exact Hrun2|].
  split; [exact Hrows|].
  destruct (Hvals 0 2 3) as [-> ->]; [reflexivity|vm_compute; lia|reflexivity].
Defined.

Lemma Physify_faults_on_missing_column_witness :
  Physify map_to_list map_to_list (Some dangling_node) sample_heap sample_source = None.
Proof.
  apply (Physify_faults_on_missing_column map_to_list map_to_list
           (λ _, reflexivity _) (λ _, reflexivity _)
           dangling_node (omap GetColumnInfo [0]) sample_heap sample_source 5 0).
  - reflexivity.
  - apply lookup_singleton_eq.
  - left. vm_compute. lia.
Defined.

Lemma Physify_empty_mapping_witness :
  ∃ h' out,
    Physify map_to_list map_to_list (Some blank_node) sample_heap sample_source
      = Some (h', out)
    ∧ NumCols (lt_schema out) = 2
    ∧ LT_GetValue h' out 0 0 = None.
Proof.
  destruct (Physify_empty_mapping map_to_list map_to_list
              (λ _, reflexivity _) (λ _, reflexivity _)
              blank_node (omap GetColumnInfo [0; 1]) sample_heap sample_source)
    as (h' & out & Hrun & Hcols & _ & Hnone); [reflexivity|reflexivity|reflexivity|].
  exists h', out. split; [exact Hrun|]. split; [exact Hcols|apply Hnone].
Defined.

Lemma DExecute_pass_through_witness :
  ∃ ex',
    DExecute map_to_list map_to_list sample_heap pass_through_executor
      = Some (true, sample_heap, ex')
    ∧ output_ ex' = Some sample_source.
Proof.
  apply (DExecute_pass_through map_to_list map_to_list sample_heap pass_through_executor
           (mkChild true [Some sample_source; None] None) [] pass_through_node);
    try reflexivity.
  vm_compute. lia.
Defined.

Lemma DExecute_state_witness :
  ∃ b h' ex',
    DExecute map_to_list map_to_list sample_heap sample_executor = Some (b, h', ex')
    ∧ node_ ex' = None ∧ length (children_ ex') = 1.
Proof.
  destruct (DExecute map_to_list map_to_list sample_heap sample_executor)
    as [[[b h'] ex']|] eqn:E; [|by vm_compute in E].
  destruct (DExecute_state _ _ _ _ _ _ _ E) as (Hnode & Hlen & _).
  by exists b, h', ex'.
Defined.

Lemma DExecute_empty_then_next_witness :
  ∃ ex1 h2 ex2,
    DExecute map_to_list map_to_list sample_heap gap_executor = Some (false, sample_heap, ex1)
    ∧ DExecute map_to_list map_to_list sample_heap ex1 = Some (true, h2, ex2)
    ∧ is_Some (output_ ex2).
Proof.
  destruct (DExecute_empty_then_next map_to_list map_to_list sample_heap gap_executor
              true empty_view sample_source [None] None [])
    as (ex1 & h2 & ex2 & Hrun1 & _ & Hrun2 & Hout).
  - reflexivity.
  - reflexivity.
  - vm_compute. lia.
  - by_computation.
  - by exists ex1, h2, ex2.
Defined.

Lemma ExecuteTile_expectations_witness :
  ∃ r,
    ExecuteTile map_to_list map_to_list false sample_heap (mkExecutor [] None None)
      sample_source = Some r
    ∧ expectations_met r.
Proof.
  destruct (ExecuteTile_expectations map_to_list map_to_list false None sample_heap None
              sample_source)
    as (h' & out & _ & Hrun & Hmet).
  - intros m. reflexivity.
  - intros m. reflexivity.
  - exact I.
  - intros n Hn. discriminate Hn.
  - reflexivity.
  - vm_compute. lia.
  - eexists. split; [exact Hrun|exact Hmet].
Defined.

End ExecutorExtra.
